(** * MIDI clock to JACK transport bridge: model and properties

    A shallow embedding of [midi_clock_sync.cpp].  The repository holds two
    revisions of the program; the later one adds the keyboard commands and
    [reset_transport], the functions they share are identical.  The later
    revision is the one embedded.

    - C++ [double] is binary64: Rocq's primitive [float], with the operations
      the hardware performs ([+], [*], [/], comparisons).  [std::round],
      [std::fmod] and the conversions to and from integers are written out on
      the sign, mantissa and exponent of the number.
    - [std::atomic<int>], [int32_t] and [jack_nframes_t] are [Z] with their
      wrap-around written out.
    - [time_point] is a count of nanoseconds (the period of
      [high_resolution_clock] on the platforms the program builds for).
    - The global [g_bpm_state] and [g_jack_client] are passed explicitly;
      calls into the JACK API and the per-measurement report line are
      recorded in a log. The banner lines written to the terminal are not. *)

From Stdlib Require Import ZArith List Bool Lia QArith Qround Lqa.
From Stdlib Require Import Uint63 Floats.
Import ListNotations.

Set Warnings "-inexact-float".
Local Open Scope Z_scope.

(** ** Machine integers *)

Definition wrap_int32 (z : Z) : Z := (z + 2 ^ 31) mod 2 ^ 32 - 2 ^ 31.
Definition wrap_uint32 (z : Z) : Z := z mod 2 ^ 32.

Definition INT32_MIN : Z := - 2 ^ 31.
Definition INT32_MAX : Z := 2 ^ 31 - 1.

(** ** Binary64 helpers *)

(** The integer [z] as a double, for [|z| < 2^63] (conversion of [int],
    [jack_nframes_t] and the 64-bit microsecond count). *)
Definition double_of_Z (z : Z) : float :=
  if z <? 0 then PrimFloat.opp (PrimFloat.of_uint63 (Uint63.of_Z (- z)))
  else PrimFloat.of_uint63 (Uint63.of_Z z).

(** [2^e] times a double, exactly when the result is representable. *)
Definition scale2 (f : float) (e : Z) : float := FloatOps.Z.ldexp f e.

(** Magnitude of a finite number truncated to an integer. *)
Definition trunc_mag (m : positive) (e : Z) : Z :=
  if 0 <=? e then Z.pos m * 2 ^ e else Z.pos m / 2 ^ (- e).

(** Magnitude of a finite number rounded to the nearest integer, halves
    away from zero. *)
Definition round_mag (m : positive) (e : Z) : Z :=
  if 0 <=? e then Z.pos m * 2 ^ e
  else
    let d := 2 ^ (- e) in
    if d <=? 2 * (Z.pos m mod d) then Z.pos m / d + 1 else Z.pos m / d.

(** [std::round]: nearest integer, halfway cases away from zero; zeros,
    infinities and NaN are returned as they are. *)
Definition round (x : float) : float :=
  match Prim2SF x with
  | S754_finite s m e =>
      if 0 <=? e then x
      else
        let f := double_of_Z (round_mag m e) in
        if s then PrimFloat.opp f else f
  | _ => x
  end.

(** [std::fmod]: [x - n*y] with [n] the quotient truncated toward zero;
    the result is exact and has the sign of [x]. *)
Definition fmod (x y : float) : float :=
  match Prim2SF x, Prim2SF y with
  | S754_nan, _ | _, S754_nan => nan
  | S754_infinity _, _ => nan
  | _, S754_zero _ => nan
  | S754_zero _, _ => x
  | S754_finite _ _ _, S754_infinity _ => x
  | S754_finite sx mx ex, S754_finite _ my ey =>
      let e := Z.min ex ey in
      let r := (Z.pos mx * 2 ^ (ex - e)) mod (Z.pos my * 2 ^ (ey - e)) in
      let f := scale2 (double_of_Z r) e in
      if sx then PrimFloat.opp f else f
  end.

(** [(int32_t) x]: truncation toward zero.  Out of range (and for NaN) the
    conversion is undefined in C++; the value taken here is the one the
    x86-64 conversion instruction delivers. *)
Definition int32_of_double (x : float) : Z :=
  match Prim2SF x with
  | S754_zero _ => 0
  | S754_finite s m e =>
      let t := if s then - trunc_mag m e else trunc_mag m e in
      if (INT32_MIN <=? t) && (t <=? INT32_MAX) then t else INT32_MIN
  | _ => INT32_MIN
  end.

(** [std::min(a, b)] is [(b < a) ? b : a], [std::max(a, b)] is
    [(a < b) ? b : a]. *)
Definition std_min (a b : float) : float := if PrimFloat.ltb b a then b else a.
Definition std_max (a b : float) : float := if PrimFloat.ltb a b then b else a.

(** The rational [m * 2^e]. *)
Definition magnitude (m : positive) (e : Z) : Q :=
  match e with
  | Zneg p => Qmake (Z.pos m) (2 ^ p)
  | _ => inject_Z (Z.pos m * 2 ^ e)
  end.

(** The exact value of a double, when it has one. *)
Definition SF2Q (x : spec_float) : option Q :=
  match x with
  | S754_zero _ => Some 0%Q
  | S754_finite s m e =>
      Some (if s then Qopp (magnitude m e) else magnitude m e)
  | _ => None
  end.

Definition value (x : float) : option Q := SF2Q (Prim2SF x).

(** ** Configuration *)

Definition PULSES_PER_QUARTER : Z := 24.
Definition MIN_BPM : float := 20.0%float.
Definition MAX_BPM : float := 300.0%float.
Definition SMOOTHING_FACTOR : float := 0.3%float.
Definition BPM_SNAP_THRESHOLD : float := 0.15%float.
Definition BPM_STABILITY_COUNT : Z := 3.

(** ** Global state *)

Record BPMState := mkBPMState {
  current_bpm : float;
  pulse_count : Z;
  last_pulse_time : Z;
  transport_rolling : bool;
  first_clock_received : bool;
  last_snapped_bpm : float;
  stability_counter : Z;
  measurement_count : Z;
  bar : Z;
  beat : Z;
  tick : Z;
  current_frame : Z;
  transport_start_time : Z;
  sample_rate : Z;
  last_updated_jack_bpm : float
}.

Definition initial_bpm_state : BPMState :=
  {| current_bpm := 120.0%float; pulse_count := 0; last_pulse_time := 0;
     transport_rolling := false; first_clock_received := false;
     last_snapped_bpm := 0.0%float; stability_counter := 0;
     measurement_count := 0; bar := 1; beat := 1; tick := 0;
     current_frame := 0; transport_start_time := 0; sample_rate := 48000;
     last_updated_jack_bpm := 0.0%float |}.

Definition set_current_bpm v s :=
  mkBPMState v (pulse_count s) (last_pulse_time s) (transport_rolling s)
    (first_clock_received s) (last_snapped_bpm s) (stability_counter s)
    (measurement_count s) (bar s) (beat s) (tick s) (current_frame s)
    (transport_start_time s) (sample_rate s) (last_updated_jack_bpm s).
Definition set_pulse_count v s :=
  mkBPMState (current_bpm s) v (last_pulse_time s) (transport_rolling s)
    (first_clock_received s) (last_snapped_bpm s) (stability_counter s)
    (measurement_count s) (bar s) (beat s) (tick s) (current_frame s)
    (transport_start_time s) (sample_rate s) (last_updated_jack_bpm s).
Definition set_last_pulse_time v s :=
  mkBPMState (current_bpm s) (pulse_count s) v (transport_rolling s)
    (first_clock_received s) (last_snapped_bpm s) (stability_counter s)
    (measurement_count s) (bar s) (beat s) (tick s) (current_frame s)
    (transport_start_time s) (sample_rate s) (last_updated_jack_bpm s).
Definition set_transport_rolling v s :=
  mkBPMState (current_bpm s) (pulse_count s) (last_pulse_time s) v
    (first_clock_received s) (last_snapped_bpm s) (stability_counter s)
    (measurement_count s) (bar s) (beat s) (tick s) (current_frame s)
    (transport_start_time s) (sample_rate s) (last_updated_jack_bpm s).
Definition set_first_clock_received v s :=
  mkBPMState (current_bpm s) (pulse_count s) (last_pulse_time s)
    (transport_rolling s) v (last_snapped_bpm s) (stability_counter s)
    (measurement_count s) (bar s) (beat s) (tick s) (current_frame s)
    (transport_start_time s) (sample_rate s) (last_updated_jack_bpm s).
Definition set_last_snapped_bpm v s :=
  mkBPMState (current_bpm s) (pulse_count s) (last_pulse_time s)
    (transport_rolling s) (first_clock_received s) v (stability_counter s)
    (measurement_count s) (bar s) (beat s) (tick s) (current_frame s)
    (transport_start_time s) (sample_rate s) (last_updated_jack_bpm s).
Definition set_stability_counter v s :=
  mkBPMState (current_bpm s) (pulse_count s) (last_pulse_time s)
    (transport_rolling s) (first_clock_received s) (last_snapped_bpm s) v
    (measurement_count s) (bar s) (beat s) (tick s) (current_frame s)
    (transport_start_time s) (sample_rate s) (last_updated_jack_bpm s).
Definition set_measurement_count v s :=
  mkBPMState (current_bpm s) (pulse_count s) (last_pulse_time s)
    (transport_rolling s) (first_clock_received s) (last_snapped_bpm s)
    (stability_counter s) v (bar s) (beat s) (tick s) (current_frame s)
    (transport_start_time s) (sample_rate s) (last_updated_jack_bpm s).
Definition set_bbt b bt t s :=
  mkBPMState (current_bpm s) (pulse_count s) (last_pulse_time s)
    (transport_rolling s) (first_clock_received s) (last_snapped_bpm s)
    (stability_counter s) (measurement_count s) b bt t (current_frame s)
    (transport_start_time s) (sample_rate s) (last_updated_jack_bpm s).
Definition set_current_frame v s :=
  mkBPMState (current_bpm s) (pulse_count s) (last_pulse_time s)
    (transport_rolling s) (first_clock_received s) (last_snapped_bpm s)
    (stability_counter s) (measurement_count s) (bar s) (beat s) (tick s) v
    (transport_start_time s) (sample_rate s) (last_updated_jack_bpm s).
Definition set_transport_start_time v s :=
  mkBPMState (current_bpm s) (pulse_count s) (last_pulse_time s)
    (transport_rolling s) (first_clock_received s) (last_snapped_bpm s)
    (stability_counter s) (measurement_count s) (bar s) (beat s) (tick s)
    (current_frame s) v (sample_rate s) (last_updated_jack_bpm s).
Definition set_last_updated_jack_bpm v s :=
  mkBPMState (current_bpm s) (pulse_count s) (last_pulse_time s)
    (transport_rolling s) (first_clock_received s) (last_snapped_bpm s)
    (stability_counter s) (measurement_count s) (bar s) (beat s) (tick s)
    (current_frame s) (transport_start_time s) (sample_rate s) v.

(** What the program asks of the JACK server and reports per measurement. *)
Inductive effect :=
| JackTransportStart
| JackTransportStop
| JackTransportLocate (frame : Z)
| JackTransportRelocateCurrent
| JackBpmUpdated (bpm : float)
| ReportBpm (final_bpm raw_bpm : float)
| DisplayStatus.

Record Globals := mkGlobals {
  g_jack_client : bool;
  g_bpm_state : BPMState;
  g_effects : list effect
}.

Definition initial_globals : Globals :=
  {| g_jack_client := false; g_bpm_state := initial_bpm_state;
     g_effects := [] |}.

Definition upd (f : BPMState -> BPMState) (g : Globals) : Globals :=
  mkGlobals (g_jack_client g) (f (g_bpm_state g)) (g_effects g).

Definition emit (e : effect) (g : Globals) : Globals :=
  mkGlobals (g_jack_client g) (g_bpm_state g) (e :: g_effects g).

(** [main] opens the JACK client and stores the server's sample rate before
    any callback or event is handled. *)
Definition jack_client_opened (rate : Z) (g : Globals) : Globals :=
  mkGlobals true
    (mkBPMState (current_bpm (g_bpm_state g)) (pulse_count (g_bpm_state g))
       (last_pulse_time (g_bpm_state g)) (transport_rolling (g_bpm_state g))
       (first_clock_received (g_bpm_state g))
       (last_snapped_bpm (g_bpm_state g)) (stability_counter (g_bpm_state g))
       (measurement_count (g_bpm_state g)) (bar (g_bpm_state g))
       (beat (g_bpm_state g)) (tick (g_bpm_state g))
       (current_frame (g_bpm_state g)) (transport_start_time (g_bpm_state g))
       rate (last_updated_jack_bpm (g_bpm_state g)))
    (g_effects g).

(** ** JACK position record (the fields the timebase callback writes) *)

Definition JackPositionBBT : Z := 16.

Record jack_position_t := mkPos {
  pos_frame : Z;
  pos_valid : Z;
  pos_bar : Z;
  pos_beat : Z;
  pos_tick : Z;
  pos_bar_start_tick : float;
  pos_beats_per_bar : float;
  pos_beat_type : float;
  pos_ticks_per_beat : float;
  pos_beats_per_minute : float
}.

(** ** Transport reset (keyboard command [R], SIGUSR2) *)

Definition reset_transport (g : Globals) : Globals :=
  let g1 :=
    if g_jack_client g then
      let g := emit JackTransportStop g in
      let g := upd (set_transport_rolling false) g in
      let g := upd (set_current_frame 0) g in
      let g := upd (set_bbt 1 1 0) g in
      emit (JackTransportLocate 0) g
    else g in
  let g2 := upd (set_pulse_count 0) g1 in
  let g3 := upd (set_measurement_count 0) g2 in
  upd (set_first_clock_received false) g3.

(** ** Process callback: one audio block of [nframes] frames *)

Definition jack_process_callback (nframes : Z) (g : Globals) : Globals :=
  if transport_rolling (g_bpm_state g) then
    let current := current_frame (g_bpm_state g) in
    upd (set_current_frame (wrap_uint32 (current + nframes))) g
  else g.

(** ** Timebase callback: the position query *)

Definition jack_timebase_callback (pos : jack_position_t) (new_pos : Z)
    (g : Globals) : jack_position_t * Globals :=
  let bpm := current_bpm (g_bpm_state g) in
  let sample_rate := sample_rate (g_bpm_state g) in
  let '(frame, g) :=
    if negb (new_pos =? 0) then (current_frame (g_bpm_state g), g)
    else (pos_frame pos, upd (set_current_frame (pos_frame pos)) g) in
  let beats_per_bar := 4.0%float in
  let ticks_per_beat := 1920.0%float in
  let seconds_elapsed := (double_of_Z frame / double_of_Z sample_rate)%float in
  let beats_elapsed := ((bpm / 60.0) * seconds_elapsed)%float in
  let total_bars := (beats_elapsed / beats_per_bar)%float in
  let bar := wrap_int32 (int32_of_double total_bars + 1) in
  let beat_in_bar := fmod beats_elapsed beats_per_bar in
  let beat := wrap_int32 (int32_of_double beat_in_bar + 1) in
  let tick_in_beat := (fmod beat_in_bar 1.0 * ticks_per_beat)%float in
  let tick := int32_of_double tick_in_beat in
  let bar_start_tick :=
    (double_of_Z (wrap_int32 (bar - 1)) * beats_per_bar * ticks_per_beat)%float in
  (mkPos frame JackPositionBBT bar beat tick bar_start_tick beats_per_bar
     4.0%float ticks_per_beat bpm,
   upd (set_bbt bar beat tick) g).

(** ** Snapping to a stable integer tempo *)

Definition snap_bpm (raw_bpm smoothed_bpm : float) (s : BPMState)
    : float * BPMState :=
  let nearest_int := round smoothed_bpm in
  let distance := PrimFloat.abs (smoothed_bpm - nearest_int)%float in
  if PrimFloat.leb distance BPM_SNAP_THRESHOLD then
    let s :=
      if PrimFloat.ltb (PrimFloat.abs (last_snapped_bpm s - nearest_int)%float)
           0.5%float
      then set_stability_counter (wrap_int32 (stability_counter s + 1)) s
      else set_last_snapped_bpm nearest_int (set_stability_counter 1 s) in
    if BPM_STABILITY_COUNT <=? stability_counter s then (nearest_int, s)
    else (smoothed_bpm, s)
  else (smoothed_bpm, set_stability_counter 0 s).

(** ** Telling JACK about a new tempo *)

Definition update_jack_transport_bpm (bpm : float) (g : Globals) : Globals :=
  if negb (g_jack_client g) then g
  else
    let last_bpm := last_updated_jack_bpm (g_bpm_state g) in
    let g :=
      if PrimFloat.ltb 0.3%float (PrimFloat.abs (bpm - last_bpm)%float) then
        emit (JackBpmUpdated bpm) (upd (set_last_updated_jack_bpm bpm) g)
      else g in
    emit JackTransportRelocateCurrent g.

Definition display_status (g : Globals) : Globals := emit DisplayStatus g.

(** ** Tempo estimation, once per clock pulse *)

(** [duration_cast<microseconds>] of a nanosecond count. *)
Definition elapsed_microseconds (now last : Z) : Z := Z.quot (now - last) 1000.

Definition clamp_bpm (raw_bpm : float) : float :=
  std_max MIN_BPM (std_min MAX_BPM raw_bpm).

Definition raw_bpm_of (elapsed : Z) : float :=
  clamp_bpm (60000000.0 / double_of_Z elapsed)%float.

Definition smooth (mcount : Z) (current raw_bpm : float) : float :=
  if (mcount <? 5) || PrimFloat.ltb 10.0%float (PrimFloat.abs (raw_bpm - current)%float)
  then (current * 0.1 + raw_bpm * 0.9)%float
  else if (mcount <? 10) || PrimFloat.ltb 3.0%float (PrimFloat.abs (raw_bpm - current)%float)
  then (current * 0.5 + raw_bpm * 0.5)%float
  else (current * (1.0 - SMOOTHING_FACTOR) + raw_bpm * SMOOTHING_FACTOR)%float.

(** The body of [if (elapsed > 0) { ... }]. *)
Definition take_measurement (elapsed : Z) (g : Globals) : Globals :=
  let raw_bpm := raw_bpm_of elapsed in
  let current := current_bpm (g_bpm_state g) in
  let mcount := measurement_count (g_bpm_state g) in
  let smoothed_bpm := smooth mcount current raw_bpm in
  let '(final_bpm, s) := snap_bpm raw_bpm smoothed_bpm (g_bpm_state g) in
  let g := upd (fun _ => s) g in
  let g := upd (set_current_bpm final_bpm) g in
  let g :=
    upd (fun s => set_measurement_count (wrap_int32 (measurement_count s + 1)) s) g in
  let g := update_jack_transport_bpm final_bpm g in
  emit (ReportBpm final_bpm raw_bpm) g.

Definition calculate_and_set_bpm (now : Z) (g : Globals) : Globals :=
  let count := pulse_count (g_bpm_state g) in
  if negb (first_clock_received (g_bpm_state g)) then
    let g := upd (set_first_clock_received true) g in
    let g := upd (set_last_pulse_time now) g in
    let g := upd (set_pulse_count 0) g in
    let g := upd (set_transport_start_time now) g in
    if g_jack_client g && negb (transport_rolling (g_bpm_state g)) then
      upd (set_transport_rolling true) (emit JackTransportStart g)
    else g
  else
    let count := wrap_int32 (count + 1) in
    if PULSES_PER_QUARTER <=? count then
      let elapsed := elapsed_microseconds now (last_pulse_time (g_bpm_state g)) in
      let g := if 0 <? elapsed then take_measurement elapsed g else g in
      let g := upd (set_pulse_count 0) g in
      let g := upd (set_last_pulse_time now) g in
      if Z.rem (measurement_count (g_bpm_state g)) 16 =? 0 then display_status g
      else g
    else upd (set_pulse_count count) g.

(** ** MIDI event dispatch *)

Inductive snd_seq_event_type :=
| SND_SEQ_EVENT_CLOCK
| SND_SEQ_EVENT_START
| SND_SEQ_EVENT_STOP
| SND_SEQ_EVENT_CONTINUE
| SND_SEQ_EVENT_OTHER.

(** [ev] is [None] for a null pointer; [now] is the clock reading taken
    while the event is handled. *)
Definition process_midi_clock (ev : option snd_seq_event_type) (now : Z)
    (g : Globals) : Globals :=
  match ev with
  | None => g
  | Some SND_SEQ_EVENT_CLOCK => calculate_and_set_bpm now g
  | Some SND_SEQ_EVENT_START =>
      let g :=
        if g_jack_client g then
          let g := upd (set_current_frame 0) g in
          let g := upd (set_bbt 1 1 0) g in
          let g := emit (JackTransportLocate 0) g in
          let g := emit JackTransportStart g in
          upd (set_transport_rolling true) g
        else g in
      let g := upd (set_pulse_count 0) g in
      let g := upd (set_measurement_count 0) g in
      let g := upd (set_first_clock_received false) g in
      upd (set_transport_start_time now) g
  | Some SND_SEQ_EVENT_STOP =>
      let g :=
        if g_jack_client g then
          upd (set_transport_rolling false) (emit JackTransportStop g)
        else g in
      let g := upd (set_pulse_count 0) g in
      upd (set_first_clock_received false) g
  | Some SND_SEQ_EVENT_CONTINUE =>
      if g_jack_client g then
        upd (set_transport_rolling true) (emit JackTransportStart g)
      else g
  | Some SND_SEQ_EVENT_OTHER => g
  end.

(** Keyboard command [P]: [jack_rolling] is what [jack_transport_query]
    reports at that moment. *)
Definition toggle_play_pause (jack_rolling : bool) (g : Globals) : Globals :=
  if g_jack_client g then
    if jack_rolling then
      upd (set_transport_rolling false) (emit JackTransportStop g)
    else upd (set_transport_rolling true) (emit JackTransportStart g)
  else g.

(** ** Runs of the program *)

(** What can happen once [main] has opened the JACK client: a MIDI event
    is handled, JACK calls one of the two callbacks, or a command arrives. *)
Inductive action :=
| MidiEvent (ev : option snd_seq_event_type) (now : Z)
| ProcessBlock (nframes : Z)
| TimebaseQuery (pos : jack_position_t) (new_pos : Z)
| ResetTransport
| TogglePlayPause (jack_rolling : bool).

Definition perform (g : Globals) (a : action) : Globals :=
  match a with
  | MidiEvent ev now => process_midi_clock ev now g
  | ProcessBlock nframes => jack_process_callback nframes g
  | TimebaseQuery pos new_pos => snd (jack_timebase_callback pos new_pos g)
  | ResetTransport => reset_transport g
  | TogglePlayPause r => toggle_play_pause r g
  end.

Definition run (acts : list action) (g : Globals) : Globals :=
  fold_left perform acts g.

(** The state when the client has just been opened: nothing but the reset
    signal can have been handled before. *)
Definition started (rate : Z) (resets : nat) : Globals :=
  jack_client_opened rate (Nat.iter resets reset_transport initial_globals).

Definition running (g : Globals) : Prop :=
  exists rate resets acts, g = run acts (started rate resets).

(** A run of audio blocks. *)
Definition advance_all (blocks : list Z) (g : Globals) : Globals :=
  fold_left (fun g n => jack_process_callback n g) blocks g.

(** A run of clock pulses, one per timestamp. *)
Definition feed_clocks (times : list Z) (g : Globals) : Globals :=
  fold_left (fun g t => calculate_and_set_bpm t g) times g.

(** [n] pulses, the first at [t0] nanoseconds, [T] microseconds apart. *)
Fixpoint evenly_spaced (t0 T : Z) (n : nat) : list Z :=
  match n with
  | O => []
  | S k => t0 :: evenly_spaced (t0 + 1000 * T) T k
  end.

(** The raw tempo samples reported so far, latest first. *)
Fixpoint raw_samples (l : list effect) : list float :=
  match l with
  | [] => []
  | ReportBpm _ raw :: l => raw :: raw_samples l
  | _ :: l => raw_samples l
  end.

Definition position (g : Globals) : Z * Z * Z * Z :=
  (current_frame (g_bpm_state g), bar (g_bpm_state g), beat (g_bpm_state g),
   tick (g_bpm_state g)).

Definition with_frame (f : Z) (pos : jack_position_t) : jack_position_t :=
  mkPos f (pos_valid pos) (pos_bar pos) (pos_beat pos) (pos_tick pos)
    (pos_bar_start_tick pos) (pos_beats_per_bar pos) (pos_beat_type pos)
    (pos_ticks_per_beat pos) (pos_beats_per_minute pos).

Definition blank_position (f : Z) : jack_position_t :=
  mkPos f 0 0 0 0 0%float 0%float 0%float 0%float 0%float.

(** ** The two statements of the specification that the program does not
    satisfy, as the specification words them *)

(** "24 evenly spaced pulses yield a first sample of 60,000,000 / (23 T)". *)
Definition first_sample_after_24_pulses (t0 T : Z) (g : Globals) : Prop :=
  raw_samples (g_effects (feed_clocks (evenly_spaced t0 T 24) g))
  = raw_bpm_of (23 * T) :: raw_samples (g_effects g).

(** "On a relocation the query honours the frame the host supplies and the
    internal counter is resynchronised to it". *)
Definition relocation_honours_host_frame (pos : jack_position_t)
    (new_pos : Z) (g : Globals) : Prop :=
  pos_frame (fst (jack_timebase_callback pos new_pos g)) = pos_frame pos /\
  current_frame (g_bpm_state (snd (jack_timebase_callback pos new_pos g)))
  = pos_frame pos.

(** What [snap_bpm] measures: how far a value is from the nearest integer. *)
Definition distance_to_nearest (x : float) : float :=
  PrimFloat.abs (x - round x)%float.

(** A smoothed value within the snap threshold of the integer [B]. *)
Definition qualifies (B x : float) : Prop :=
  round x = B /\
  PrimFloat.leb (distance_to_nearest x) BPM_SNAP_THRESHOLD = true.

(** The exact value of [x] is at least the rational [q]. *)
Definition value_at_least (q : Q) (x : float) : Prop :=
  match value x with
  | Some d => (q <= d)%Q
  | None => False
  end.

(** Consecutive measurements, each given as (raw, smoothed), through the
    snapping step: the values returned, in order, and the state after. *)
Fixpoint snap_all (ms : list (float * float)) (s : BPMState)
    : list float * BPMState :=
  match ms with
  | [] => ([], s)
  | (raw, smoothed) :: ms =>
      let '(y, s1) := snap_bpm raw smoothed s in
      let '(ys, s2) := snap_all ms s1 in
      (y :: ys, s2)
  end.

(** The tracked snap target matches [B]. *)
Definition tracks (s : BPMState) (B : float) : Prop :=
  PrimFloat.ltb (PrimFloat.abs (last_snapped_bpm s - B)%float) 0.5%float = true.

(** ** Rounding of binary64 results, on integers *)

(** [m / 2^p] rounded to the nearest integer, ties to even. *)
Definition rne (m p : Z) : Z :=
  let q := m / 2 ^ p in
  let r := m mod 2 ^ p in
  match 2 * r ?= 2 ^ p with
  | Lt => q
  | Eq => if Z.even q then q else q + 1
  | Gt => q + 1
  end.

(** [m * 2^e] on the scale [2^-k], an integer when [0 <= e + k]. *)
Definition scaled (k m e : Z) : Z := m * 2 ^ (e + k).

(** The value of a positive finite double on the scale [2^-k]. *)
Definition SFscaled (k : Z) (x : spec_float) : Z :=
  match x with
  | S754_finite false m e => scaled k (Z.pos m) e
  | _ => 0
  end.

(** A positive normal double with an exponent far from the ends of the
    range. *)
Definition posnormal (lo hi : Z) (x : spec_float) : Prop :=
  match x with
  | S754_finite false m e =>
      2 ^ 52 <= Z.pos m < 2 ^ 53 /\ lo <= e <= hi
  | _ => False
  end.

(** [r] is the exact positive value [m * 2^e], with at least 53 digits and
    well inside the exponent range, rounded to binary64. *)
Definition rounds_to (m : positive) (e : Z) (r : spec_float) : Prop :=
  r = binary_round_aux prec emax false (Z.pos m) e loc_Exact /\
  53 <= Z.pos (digits2_pos m) /\
  -1074 <= e /\
  e + (Z.pos (digits2_pos m) - 53) < 971.

(** Positive normal doubles with exponents between -500 and 400: all the
    tempo arithmetic stays far inside. *)
Definition normal_in (x : float) : Prop := posnormal (-500) 400 (Prim2SF x).

(** A tempo within the clamp bounds. *)
Definition bpm_in_range (x : float) : Prop :=
  PrimFloat.leb MIN_BPM x = true /\ PrimFloat.leb x MAX_BPM = true.

(** The beats elapsed at [frame]: [bpm / 60] times the seconds elapsed. *)
Definition beats_elapsed (bpm : float) (frame rate : Z) : float :=
  ((bpm / 60.0) * (double_of_Z frame / double_of_Z rate))%float.

(** The state of the scenarios: (frame, bar, beat, tick) a query answers. *)
Definition bbt (pos : jack_position_t) : Z * Z * Z :=
  (pos_bar pos, pos_beat pos, pos_tick pos).

(** ** Views of the state *)

(** What the tempo estimator owns. *)
Definition estimator_view (s : BPMState)
    : float * Z * Z * bool * float * Z * Z * float :=
  (current_bpm s, pulse_count s, last_pulse_time s, first_clock_received s,
   last_snapped_bpm s, stability_counter s, measurement_count s,
   last_updated_jack_bpm s).

(** The requests sent to the JACK server so far, latest first. *)
Fixpoint jack_requests (l : list effect) : list effect :=
  match l with
  | [] => []
  | JackTransportStart :: l => JackTransportStart :: jack_requests l
  | JackTransportStop :: l => JackTransportStop :: jack_requests l
  | JackTransportLocate f :: l => JackTransportLocate f :: jack_requests l
  | JackTransportRelocateCurrent :: l =>
      JackTransportRelocateCurrent :: jack_requests l
  | _ :: l => jack_requests l
  end.

(** The latest measurement report, as (final, raw). *)
Fixpoint last_report (l : list effect) : option (float * float) :=
  match l with
  | [] => None
  | ReportBpm final raw :: _ => Some (final, raw)
  | _ :: l => last_report l
  end.

(** A MIDI event or a keyboard command: what the program handles outside
    the two JACK callbacks. *)
Definition is_callback (a : action) : bool :=
  match a with
  | ProcessBlock _ | TimebaseQuery _ _ => true
  | _ => false
  end.

Definition total_frames (blocks : list Z) : Z := fold_right Z.add 0 blocks.

(** * Properties *)

(** ** Small facts about the state *)

Lemma upd_same_frame (g : Globals) :
  upd (set_current_frame (current_frame (g_bpm_state g))) g = g.
Proof. destruct g as [c [] l]; reflexivity. Qed.

Lemma advance_all_stopped (blocks : list Z) (g : Globals) :
  transport_rolling (g_bpm_state g) = false -> advance_all blocks g = g.
Proof.
  unfold advance_all.
  induction blocks as [|n blocks IH]; intros Hstop; simpl.
  - reflexivity.
  - unfold jack_process_callback at 2. rewrite Hstop. now apply IH.
Qed.

Lemma wrap_int32_small (z : Z) :
  -2147483648 <= z < 2147483648 -> wrap_int32 z = z.
Proof.
  intros H. unfold wrap_int32.
  change (2 ^ 31) with 2147483648. change (2 ^ 32) with 4294967296.
  rewrite Z.mod_small by lia. lia.
Qed.

(** ** The position query and the frame counter *)

Lemma process_callback_cases (n : Z) (g : Globals) :
  jack_process_callback n g = g \/
  exists f, jack_process_callback n g = upd (set_current_frame f) g.
Proof.
  unfold jack_process_callback.
  destruct (transport_rolling (g_bpm_state g)); [right|left]; eauto.
Qed.

Lemma advance_all_cases (blocks : list Z) (g : Globals) :
  advance_all blocks g = g \/
  exists f, advance_all blocks g = upd (set_current_frame f) g.
Proof.
  unfold advance_all. revert g.
  induction blocks as [|n blocks IH]; intros g; simpl.
  - now left.
  - destruct (process_callback_cases n g) as [-> | [f ->]].
    + apply IH.
    + destruct (IH (upd (set_current_frame f) g)) as [-> | [f' ->]];
        right; eexists; destruct g as [c [] l]; reflexivity.
Qed.

(** C10: with the relocation flag clear the query stores the host's frame
    in the shared counter before it computes bar, beat and tick: whatever the
    process callback had accumulated there is dropped, and neither the
    answer nor the state after the query depends on it. *)
Theorem timebase_query_overwrites_frame (pos : jack_position_t) (g : Globals) :
  current_frame (g_bpm_state (snd (jack_timebase_callback pos 0 g)))
  = pos_frame pos /\
  pos_frame (fst (jack_timebase_callback pos 0 g)) = pos_frame pos /\
  (forall f, jack_timebase_callback pos 0 (upd (set_current_frame f) g)
             = jack_timebase_callback pos 0 g) /\
  (forall blocks, jack_timebase_callback pos 0 (advance_all blocks g)
                  = jack_timebase_callback pos 0 g).
Proof.
  assert (Hf : forall f, jack_timebase_callback pos 0 (upd (set_current_frame f) g)
             = jack_timebase_callback pos 0 g).
  { intros f. destruct g as [c [] l]. reflexivity. }
  repeat split; try reflexivity; try exact Hf.
  intros blocks.
  destruct (advance_all_cases blocks g) as [-> | [f ->]]; auto.
Qed.

(** The statement of C2 fails: the counter stands at 10000 after one block,
    the host relocates to frame 0, and the query answers with frame 10000
    and leaves the counter at 10000. *)
Lemma relocation_does_not_honour_host_frame :
  ~ relocation_honours_host_frame (blank_position 0) 1
      (run [MidiEvent (Some SND_SEQ_EVENT_START) 0; ProcessBlock 10000]
         (started 48000 0)).
Proof.
  unfold relocation_honours_host_frame. vm_compute. intros [H _]. discriminate H.
Qed.

(** C2, as the program has it: on a relocation ([new_pos] set) the query
    answers from the internally tracked frame, not from the frame the host
    supplies: it writes the internal counter into the position record,
    computes bar, beat and tick from it and leaves the counter as it was. It
    is the query without relocation asked at the internal frame. *)
Theorem relocation_uses_internal_frame (pos : jack_position_t) (new_pos : Z)
    (g : Globals) :
  new_pos <> 0 ->
  pos_frame (fst (jack_timebase_callback pos new_pos g))
  = current_frame (g_bpm_state g) /\
  current_frame (g_bpm_state (snd (jack_timebase_callback pos new_pos g)))
  = current_frame (g_bpm_state g) /\
  jack_timebase_callback pos new_pos g
  = jack_timebase_callback (with_frame (current_frame (g_bpm_state g)) pos) 0 g.
Proof.
  intros Hnew.
  unfold jack_timebase_callback.
  destruct (Z.eqb_spec new_pos 0) as [|_]; [contradiction|].
  simpl. rewrite upd_same_frame. repeat split.
Qed.

Lemma relocation_uses_internal_frame_witness :
  let g := run [MidiEvent (Some SND_SEQ_EVENT_START) 0; ProcessBlock 10000]
             (started 48000 0) in
  pos_frame (fst (jack_timebase_callback (blank_position 0) 1 g)) = 10000.
Proof.
  intro g.
  destruct (relocation_uses_internal_frame (blank_position 0) 1 g) as [H _].
  - discriminate.
  - rewrite H. reflexivity.
Defined.

(** ** Transport mode and the frame counter *)

Lemma perform_client (g : Globals) (a : action) :
  g_jack_client (perform g a) = g_jack_client g.
Proof.
  destruct a as [[[]|] now|n|pos np| |r]; simpl;
    unfold calculate_and_set_bpm, take_measurement, update_jack_transport_bpm,
      display_status, jack_process_callback, reset_transport,
      toggle_play_pause, jack_timebase_callback;
    repeat match goal with
           | |- context [if ?b then _ else _] => destruct b eqn:?
           | |- context [let '(_, _) := ?p in _] => destruct p eqn:?
           end; simpl; congruence.
Qed.

Lemma running_client_open (g : Globals) : running g -> g_jack_client g = true.
Proof.
  intros (rate & resets & acts & ->).
  assert (H : g_jack_client (started rate resets) = true) by reflexivity.
  revert H. generalize (started rate resets). unfold run.
  induction acts as [|a acts IH]; intros g H; simpl; [exact H|].
  apply IH. now rewrite perform_client.
Qed.

(** C6: the process callback moves the frame counter only while the
    transport is rolling; while it is stopped every call leaves the whole
    state as it is.  A Stop event handled while rolling at frame [f] (10000
    in the scenario) stops the transport, and no run of audio blocks after it
    moves the counter. *)
Theorem frame_advances_only_while_rolling :
  (forall n g, transport_rolling (g_bpm_state g) = false ->
               jack_process_callback n g = g) /\
  (forall n g, transport_rolling (g_bpm_state g) = true ->
               current_frame (g_bpm_state (jack_process_callback n g))
               = wrap_uint32 (current_frame (g_bpm_state g) + n)) /\
  (forall g f now blocks,
      running g ->
      transport_rolling (g_bpm_state g) = true ->
      current_frame (g_bpm_state g) = f ->
      let g' := process_midi_clock (Some SND_SEQ_EVENT_STOP) now g in
      transport_rolling (g_bpm_state g') = false /\
      current_frame (g_bpm_state g') = f /\
      current_frame (g_bpm_state (advance_all blocks g')) = f).
Proof.
  split; [|split].
  - intros n g H. unfold jack_process_callback. now rewrite H.
  - intros n g H. unfold jack_process_callback. now rewrite H.
  - intros g f now blocks Hrun Hroll Hf g'.
    assert (Hc := running_client_open g Hrun).
    assert (Hstop : transport_rolling (g_bpm_state g') = false).
    { unfold g'. simpl. rewrite Hc. reflexivity. }
    assert (Hfr : current_frame (g_bpm_state g') = f).
    { unfold g'. simpl. rewrite Hc. exact Hf. }
    rewrite advance_all_stopped by exact Hstop. auto.
Qed.

Lemma frame_advances_only_while_rolling_witness :
  let g := run [MidiEvent (Some SND_SEQ_EVENT_START) 0; ProcessBlock 10000]
             (started 48000 0) in
  let g' := process_midi_clock (Some SND_SEQ_EVENT_STOP) 5 g in
  current_frame (g_bpm_state g) = 10000 /\
  transport_rolling (g_bpm_state g') = false /\
  current_frame (g_bpm_state (advance_all [256; 256; 1024] g')) = 10000.
Proof.
  intros g g'.
  destruct frame_advances_only_while_rolling as (_ & _ & H).
  destruct (H g 10000 5 [256; 256; 1024]) as (H1 & H2 & H3).
  - exists 48000, 0%nat. eexists. reflexivity.
  - reflexivity.
  - reflexivity.
  - repeat split; assumption.
Defined.

(** C9: once the client is open (events are only handled then), a Start
    event, any run of audio blocks and a reset leave the transport at frame
    0, bar 1, beat 1, tick 0. *)
Theorem start_advance_reset_round_trip (g : Globals) (now : Z) (blocks : list Z) :
  g_jack_client g = true ->
  position
    (reset_transport
       (advance_all blocks (process_midi_clock (Some SND_SEQ_EVENT_START) now g)))
  = (0, 1, 1, 0).
Proof.
  intros Hc.
  assert (H : forall g', g_jack_client g' = true ->
                         position (reset_transport g') = (0, 1, 1, 0)).
  { intros g' Hc'. unfold reset_transport. rewrite Hc'. reflexivity. }
  apply H.
  destruct (advance_all_cases blocks
              (process_midi_clock (Some SND_SEQ_EVENT_START) now g))
    as [-> | [f ->]];
    change (process_midi_clock (Some SND_SEQ_EVENT_START) now g)
      with (perform g (MidiEvent (Some SND_SEQ_EVENT_START) now));
    [|change (g_jack_client (upd (set_current_frame f) ?x))
        with (g_jack_client x)];
    now rewrite perform_client.
Qed.

Lemma start_advance_reset_round_trip_witness :
  position
    (reset_transport
       (advance_all [512; 512; 512]
          (process_midi_clock (Some SND_SEQ_EVENT_START) 7
             (run [ProcessBlock 10000; TimebaseQuery (blank_position 96000) 0]
                (started 48000 0)))))
  = (0, 1, 1, 0).
Proof.
  apply start_advance_reset_round_trip. reflexivity.
Defined.

(** ** Comparisons of doubles *)

Lemma ltb_leb (x y : float) : PrimFloat.ltb x y = true -> PrimFloat.leb x y = true.
Proof.
  rewrite ltb_spec, leb_spec. unfold SFltb, SFleb.
  destruct (SFcompare (Prim2SF x) (Prim2SF y)) as [[]|]; congruence.
Qed.

Lemma mul_comm (x y : float) : (x * y = y * x)%float.
Proof.
  apply Prim2SF_inj. rewrite !mul_spec.
  destruct (Prim2SF x) as [sx|sx| |sx mx ex], (Prim2SF y) as [sy|sy| |sy my ey];
    simpl; rewrite ?(xorb_comm sx sy); try reflexivity.
  now rewrite (Pos.mul_comm mx my), (Z.add_comm ex ey).
Qed.

Lemma clamp_bpm_bounds (x : float) :
  PrimFloat.leb MIN_BPM (clamp_bpm x) = true /\
  PrimFloat.leb (clamp_bpm x) MAX_BPM = true.
Proof.
  unfold clamp_bpm, std_max, std_min.
  destruct (PrimFloat.ltb x MAX_BPM) eqn:Hhi.
  - destruct (PrimFloat.ltb MIN_BPM x) eqn:Hlo.
    + split; now apply ltb_leb.
    + split; reflexivity.
  - split; reflexivity.
Qed.

(** ** Counting pulses *)

Lemma upd_same_pulse_count (g : Globals) :
  upd (set_pulse_count (pulse_count (g_bpm_state g))) g = g.
Proof. destruct g as [c [] l]; reflexivity. Qed.

Lemma feed_clocks_app (l1 l2 : list Z) (g : Globals) :
  feed_clocks (l1 ++ l2) g = feed_clocks l2 (feed_clocks l1 g).
Proof. apply fold_left_app. Qed.

Lemma evenly_spaced_snoc (t0 T : Z) (n : nat) :
  evenly_spaced t0 T (S n)
  = evenly_spaced t0 T n ++ [t0 + Z.of_nat n * (1000 * T)].
Proof.
  revert t0. induction n as [|n IH]; intros t0.
  - cbn [evenly_spaced app Z.of_nat]. f_equal. lia.
  - change (evenly_spaced t0 T (S (S n)))
      with (t0 :: evenly_spaced (t0 + 1000 * T) T (S n)).
    rewrite IH.
    change (evenly_spaced t0 T (S n))
      with (t0 :: evenly_spaced (t0 + 1000 * T) T n).
    rewrite <- app_comm_cons, Nat2Z.inj_succ. do 3 f_equal. lia.
Qed.

(** Inside a window a pulse only counts. *)
Lemma feed_clocks_counts (times : list Z) (g : Globals) :
  first_clock_received (g_bpm_state g) = true ->
  0 <= pulse_count (g_bpm_state g) ->
  pulse_count (g_bpm_state g) + Z.of_nat (length times) < PULSES_PER_QUARTER ->
  feed_clocks times g
  = upd (set_pulse_count (pulse_count (g_bpm_state g) + Z.of_nat (length times))) g.
Proof.
  unfold PULSES_PER_QUARTER.
  revert g. induction times as [|t times IH]; intros g Hfirst Hpos Hlt.
  - simpl. rewrite Z.add_0_r. now rewrite upd_same_pulse_count.
  - cbn [length] in Hlt. rewrite Nat2Z.inj_succ in Hlt.
    change (feed_clocks (t :: times) g)
      with (feed_clocks times (calculate_and_set_bpm t g)).
    assert (Hstep : calculate_and_set_bpm t g
                    = upd (set_pulse_count (pulse_count (g_bpm_state g) + 1)) g).
    { unfold calculate_and_set_bpm. rewrite Hfirst. simpl negb. cbv iota.
      rewrite wrap_int32_small by lia.
      unfold PULSES_PER_QUARTER.
      destruct (Z.leb_spec 24 (pulse_count (g_bpm_state g) + 1)); [lia|reflexivity]. }
    rewrite Hstep, IH.
    + cbn [length]. rewrite Nat2Z.inj_succ.
      replace (pulse_count (g_bpm_state g) + Z.succ (Z.of_nat (length times)))
        with (pulse_count (g_bpm_state g) + 1 + Z.of_nat (length times)) by lia.
      destruct g as [c [] l]. reflexivity.
    + destruct g as [c [] l]. exact Hfirst.
    + destruct g as [c [] l]. cbn in *. lia.
    + destruct g as [c [] l]. cbn in *. lia.
Qed.

(** The first pulse of a window opens it. *)
Lemma first_pulse_opens_window (t : Z) (g : Globals) :
  first_clock_received (g_bpm_state g) = false ->
  let g1 := calculate_and_set_bpm t g in
  first_clock_received (g_bpm_state g1) = true /\
  pulse_count (g_bpm_state g1) = 0 /\
  last_pulse_time (g_bpm_state g1) = t /\
  current_bpm (g_bpm_state g1) = current_bpm (g_bpm_state g) /\
  measurement_count (g_bpm_state g1) = measurement_count (g_bpm_state g) /\
  raw_samples (g_effects g1) = raw_samples (g_effects g).
Proof.
  intros Hfirst. unfold calculate_and_set_bpm. rewrite Hfirst. simpl negb. cbv iota.
  destruct g as [c [bpm pc lpt rolling fcr lsb sc mc b bt tk cf tst sr luj] l].
  simpl in *.
  destruct (c && negb rolling); simpl; repeat split.
Qed.

Lemma raw_samples_take_measurement (e : Z) (g : Globals) :
  raw_samples (g_effects (take_measurement e g))
  = raw_bpm_of e :: raw_samples (g_effects g).
Proof.
  unfold take_measurement.
  destruct (snap_bpm _ _ _) as [final s].
  unfold update_jack_transport_bpm. simpl.
  destruct (g_jack_client g); simpl; [|reflexivity].
  destruct (PrimFloat.ltb _ _); reflexivity.
Qed.

(** The pulse that closes a window of [24] counted pulses. *)
Lemma closing_pulse (t : Z) (g : Globals) :
  first_clock_received (g_bpm_state g) = true ->
  pulse_count (g_bpm_state g) = 23 ->
  0 < elapsed_microseconds t (last_pulse_time (g_bpm_state g)) ->
  raw_samples (g_effects (calculate_and_set_bpm t g))
  = raw_bpm_of (elapsed_microseconds t (last_pulse_time (g_bpm_state g)))
      :: raw_samples (g_effects g).
Proof.
  intros Hfirst Hcount Hpos. unfold calculate_and_set_bpm.
  rewrite Hfirst, Hcount. simpl negb. cbv iota.
  change (PULSES_PER_QUARTER <=? wrap_int32 (23 + 1)) with true. cbv iota.
  destruct (Z.ltb_spec 0 (elapsed_microseconds t (last_pulse_time (g_bpm_state g))));
    [|lia].
  match goal with |- context [if ?b then _ else _] => destruct b end;
    simpl; apply raw_samples_take_measurement.
Qed.

Lemma feed_clocks_cons (t : Z) (l : list Z) (g : Globals) :
  feed_clocks (t :: l) g = feed_clocks l (calculate_and_set_bpm t g).
Proof. reflexivity. Qed.

Lemma evenly_spaced_S (t0 T : Z) (n : nat) :
  evenly_spaced t0 T (S n) = t0 :: evenly_spaced (t0 + 1000 * T) T n.
Proof. reflexivity. Qed.

Lemma length_evenly_spaced (t0 T : Z) (n : nat) :
  length (evenly_spaced t0 T n) = n.
Proof.
  revert t0. induction n as [|n IH]; intros t0; cbn [evenly_spaced length].
  - reflexivity.
  - now rewrite IH.
Qed.

(** The 23 pulses after the first one are counted and change nothing else. *)
Lemma window_counts_23 (t1 T : Z) (g1 : Globals) :
  first_clock_received (g_bpm_state g1) = true ->
  pulse_count (g_bpm_state g1) = 0 ->
  feed_clocks (evenly_spaced t1 T 23) g1 = upd (set_pulse_count 23) g1.
Proof.
  intros Hfirst Hcount.
  rewrite feed_clocks_counts.
  - now rewrite Hcount, length_evenly_spaced.
  - exact Hfirst.
  - rewrite Hcount. lia.
  - rewrite Hcount, length_evenly_spaced. reflexivity.
Qed.

(** The statement of C1 fails: after 24 pulses 20833 microseconds apart no
    sample has been taken yet. *)
Lemma no_sample_after_24_pulses :
  ~ first_sample_after_24_pulses 0 20833 (started 48000 0).
Proof. unfold first_sample_after_24_pulses. vm_compute. discriminate. Qed.

(** C1, as the program has it: in a fresh measurement window the first
    pulse only records its time and the next 23 are counted, so 24 pulses
    yield no sample; the 25th pulse closes the window, the elapsed time spans
    the 24 intervals between the 25 pulses, and the sample is
    60,000,000 / (24 T) clamped to [20, 300]. *)
Theorem first_sample_spans_24_intervals (t0 T : Z) (g : Globals) :
  first_clock_received (g_bpm_state g) = false ->
  0 < T ->
  let g24 := feed_clocks (evenly_spaced t0 T 24) g in
  let g25 := feed_clocks (evenly_spaced t0 T 25) g in
  raw_samples (g_effects g24) = raw_samples (g_effects g) /\
  current_bpm (g_bpm_state g24) = current_bpm (g_bpm_state g) /\
  measurement_count (g_bpm_state g24) = measurement_count (g_bpm_state g) /\
  raw_samples (g_effects g25)
  = clamp_bpm (60000000.0 / double_of_Z (24 * T))%float
      :: raw_samples (g_effects g) /\
  PrimFloat.leb MIN_BPM (clamp_bpm (60000000.0 / double_of_Z (24 * T))%float) = true /\
  PrimFloat.leb (clamp_bpm (60000000.0 / double_of_Z (24 * T))%float) MAX_BPM = true.
Proof.
  intros Hfresh HT g24 g25.
  destruct (first_pulse_opens_window t0 g Hfresh)
    as (Hfirst & Hcount & Hlast & Hbpm & Hmc & Hraw).
  assert (H25 : g25 = calculate_and_set_bpm (t0 + 24 * (1000 * T)) g24).
  { unfold g25, g24. rewrite (evenly_spaced_snoc t0 T 24), feed_clocks_app.
    reflexivity. }
  assert (H24 : g24 = upd (set_pulse_count 23) (calculate_and_set_bpm t0 g)).
  { unfold g24. rewrite (evenly_spaced_S t0 T 23), feed_clocks_cons.
    apply (window_counts_23 (t0 + 1000 * T) T _ Hfirst Hcount). }
  clearbody g24 g25. revert Hfirst Hcount Hlast Hbpm Hmc Hraw H24.
  generalize (calculate_and_set_bpm t0 g).
  intros g1 Hfirst Hcount Hlast Hbpm Hmc Hraw H24.
  assert (Hel : elapsed_microseconds (t0 + 24 * (1000 * T))
                  (last_pulse_time (g_bpm_state g24)) = 24 * T).
  { rewrite H24.
    change (last_pulse_time (g_bpm_state (upd (set_pulse_count 23) g1)))
      with (last_pulse_time (g_bpm_state g1)).
    rewrite Hlast. unfold elapsed_microseconds.
    replace (t0 + 24 * (1000 * T) - t0) with (24 * T * 1000) by lia.
    apply Z.quot_mul. lia. }
  split; [rewrite H24; exact Hraw|].
  split; [rewrite H24; exact Hbpm|].
  split; [rewrite H24; exact Hmc|].
  split; [|apply clamp_bpm_bounds].
  rewrite H25, closing_pulse.
  - rewrite Hel. f_equal. rewrite H24. exact Hraw.
  - rewrite H24. exact Hfirst.
  - rewrite H24. reflexivity.
  - rewrite Hel. lia.
Qed.

Lemma first_sample_spans_24_intervals_witness :
  raw_samples (g_effects (feed_clocks (evenly_spaced 0 20833 25) (started 48000 0)))
  = [clamp_bpm (60000000.0 / double_of_Z (24 * 20833))%float].
Proof.
  destruct (first_sample_spans_24_intervals 0 20833 (started 48000 0))
    as (_ & _ & _ & H & _).
  - reflexivity.
  - lia.
  - exact H.
Defined.

(** ** Discarded samples *)

(** C7: on the pulse that closes a window, an elapsed time that is not
    positive discards the sample: tempo, measurement count and the snap
    bookkeeping stay as they are and nothing is reported, while the pulse
    counter goes back to 0 and the boundary timestamp becomes the time of
    this pulse. *)
Theorem non_positive_elapsed_discards (now : Z) (g : Globals) :
  first_clock_received (g_bpm_state g) = true ->
  PULSES_PER_QUARTER <= wrap_int32 (pulse_count (g_bpm_state g) + 1) ->
  elapsed_microseconds now (last_pulse_time (g_bpm_state g)) <= 0 ->
  let g' := calculate_and_set_bpm now g in
  current_bpm (g_bpm_state g') = current_bpm (g_bpm_state g) /\
  measurement_count (g_bpm_state g') = measurement_count (g_bpm_state g) /\
  stability_counter (g_bpm_state g') = stability_counter (g_bpm_state g) /\
  last_snapped_bpm (g_bpm_state g') = last_snapped_bpm (g_bpm_state g) /\
  raw_samples (g_effects g') = raw_samples (g_effects g) /\
  pulse_count (g_bpm_state g') = 0 /\
  last_pulse_time (g_bpm_state g') = now.
Proof.
  intros Hfirst Hcount Hel. unfold calculate_and_set_bpm.
  rewrite Hfirst. simpl negb. cbv iota.
  destruct (Z.leb_spec PULSES_PER_QUARTER (wrap_int32 (pulse_count (g_bpm_state g) + 1)));
    [|lia].
  destruct (Z.ltb_spec 0 (elapsed_microseconds now (last_pulse_time (g_bpm_state g))));
    [lia|].
  destruct g as [c [] l]; simpl.
  match goal with |- context [if ?b then _ else _] => destruct b end;
    simpl; repeat split.
Qed.

Lemma non_positive_elapsed_discards_witness :
  let g := feed_clocks (evenly_spaced 5000 0 24) (started 48000 0) in
  let g' := calculate_and_set_bpm 5000 g in
  current_bpm (g_bpm_state g') = 120%float /\
  measurement_count (g_bpm_state g') = 0 /\
  pulse_count (g_bpm_state g') = 0 /\
  last_pulse_time (g_bpm_state g') = 5000.
Proof.
  intros g g'.
  destruct (non_positive_elapsed_discards 5000 g) as (H1 & H2 & _ & _ & _ & H3 & H4).
  - reflexivity.
  - vm_compute. discriminate.
  - vm_compute. discriminate.
  - unfold g'.
    split; [rewrite H1; vm_compute; reflexivity|].
    split; [rewrite H2; vm_compute; reflexivity|].
    split; assumption.
Defined.

Lemma Prim2SF_threshold :
  Prim2SF BPM_SNAP_THRESHOLD = S754_finite false 5404319552844595 (-55).
Proof. vm_compute. reflexivity. Qed.

Lemma Prim2SF_half : Prim2SF 0.5%float = S754_finite false 4503599627370496 (-53).
Proof. vm_compute. reflexivity. Qed.

(** A number within the threshold of another is finite, and so is the
    other. *)
Lemma within_threshold_finite (x B : float) :
  PrimFloat.leb (PrimFloat.abs (x - B)%float) BPM_SNAP_THRESHOLD = true ->
  match Prim2SF B with
  | S754_zero _ | S754_finite _ _ _ => True
  | _ => False
  end.
Proof.
  rewrite leb_spec, abs_spec, sub_spec, Prim2SF_threshold.
  destruct (Prim2SF B) as [sb|[]| |sb mb eb]; try exact (fun _ => I);
    destruct (Prim2SF x) as [sx|[]| |sx mx ex]; simpl; discriminate.
Qed.

Lemma sub_diag (B : float) :
  match Prim2SF B with
  | S754_zero _ | S754_finite _ _ _ => True
  | _ => False
  end ->
  Prim2SF (B - B)%float = S754_zero false.
Proof.
  rewrite sub_spec.
  destruct (Prim2SF B) as [[]|sb| |sb mb eb]; try contradiction; intros _;
    try reflexivity.
  unfold SF64sub, SFsub. now rewrite Z.sub_diag.
Qed.

Lemma qualifies_tracks_itself (B x : float) (s : BPMState) :
  qualifies B x -> tracks (set_last_snapped_bpm B s) B.
Proof.
  intros [<- Hq]. unfold tracks.
  change (last_snapped_bpm (set_last_snapped_bpm (round x) s)) with (round x).
  rewrite ltb_spec, abs_spec, sub_diag, Prim2SF_half; [reflexivity|].
  exact (within_threshold_finite _ _ Hq).
Qed.

(** One qualifying measurement. *)
Lemma snap_bpm_qualifying (B raw x : float) (s : BPMState) :
  qualifies B x ->
  0 <= stability_counter s < 2147483647 ->
  tracks (snd (snap_bpm raw x s)) B /\
  1 <= stability_counter (snd (snap_bpm raw x s)) <= stability_counter s + 1 /\
  (tracks s B ->
   stability_counter (snd (snap_bpm raw x s)) = stability_counter s + 1) /\
  (3 <= stability_counter (snd (snap_bpm raw x s)) ->
   fst (snap_bpm raw x s) = B).
Proof.
  intros Hq Hc. pose proof Hq as [HB Hle].
  unfold snap_bpm. fold (distance_to_nearest x). rewrite Hle, HB.
  unfold tracks.
  destruct (PrimFloat.ltb (PrimFloat.abs (last_snapped_bpm s - B)%float) 0.5%float)
    eqn:Htr.
  - change (stability_counter (set_stability_counter ?c s)) with c.
    rewrite wrap_int32_small by lia. unfold BPM_STABILITY_COUNT.
    destruct (Z.leb_spec 3 (stability_counter s + 1)); simpl;
      (split; [exact Htr|]); (split; [lia|]); (split; [reflexivity|]);
      intros; try reflexivity; lia.
  - change (stability_counter (set_last_snapped_bpm B (set_stability_counter 1 s)))
      with 1.
    change (BPM_STABILITY_COUNT <=? 1) with false. cbv iota.
    unfold snd, fst.
    change (stability_counter (set_last_snapped_bpm B (set_stability_counter 1 s)))
      with 1.
    split; [|split; [lia|split; [discriminate|lia]]].
    apply (qualifies_tracks_itself B x (set_stability_counter 1 s) Hq).
Qed.

Lemma snap_all_cons (raw x : float) (ms : list (float * float)) (s : BPMState) :
  snap_all ((raw, x) :: ms) s
  = (fst (snap_bpm raw x s) :: fst (snap_all ms (snd (snap_bpm raw x s))),
     snd (snap_all ms (snd (snap_bpm raw x s)))).
Proof.
  cbn [snap_all]. destruct (snap_bpm raw x s) as [y s1]. cbn [fst snd].
  destruct (snap_all ms s1) as [ys s2]. reflexivity.
Qed.

(** Qualifying measurements against the tracked target: the [n]-th one
    returns the target once the counter has reached 3. *)
Lemma snap_all_tracking (B : float) (ms : list (float * float)) :
  Forall (fun m => qualifies B (snd m)) ms ->
  forall (s : BPMState) (n : nat),
    tracks s B ->
    0 <= stability_counter s ->
    stability_counter s + Z.of_nat (length ms) < 2147483648 ->
    (n < length ms)%nat ->
    3 <= stability_counter s + Z.of_nat n + 1 ->
    nth n (fst (snap_all ms s)) nan = B.
Proof.
  induction 1 as [|[raw x] ms Hq _ IH]; intros s n Htr Hc Hlen Hn Hthree.
  - inversion Hn.
  - cbn [length] in Hlen, Hn. rewrite Nat2Z.inj_succ in Hlen.
    rewrite snap_all_cons. cbn [fst].
    destruct (snap_bpm_qualifying B raw x s Hq ltac:(lia)) as (Htr' & Hc' & Hinc & Hret).
    specialize (Hinc Htr).
    destruct n as [|n]; cbn [nth].
    + apply Hret. rewrite Hinc. simpl in Hthree. lia.
    + apply IH; try assumption; try lia.
Qed.

(** ** Mantissas of doubles *)

Lemma digits2_pos_bound (m : positive) : Z.pos m < 2 ^ Z.pos (digits2_pos m).
Proof.
  induction m as [m IH|m IH|]; cbn [digits2_pos];
    rewrite ?Pos2Z.inj_succ, ?Z.pow_succ_r by lia; lia.
Qed.

Lemma valid_mantissa_bound (s : bool) (m : positive) (e : Z) :
  valid_binary (S754_finite s m e) = true -> Z.pos m < 2 ^ 53.
Proof.
  unfold SpecFloat.valid_binary, bounded, canonical_mantissa, fexp.
  intros H. apply andb_true_iff in H. destruct H as [H _].
  apply Z.eqb_eq in H.
  change (SpecFloat.emin prec emax) with (-1074) in H. change prec with 53 in H.
  apply Z.lt_le_trans with (1 := digits2_pos_bound m).
  apply Z.pow_le_mono_r; lia.
Qed.

Lemma magnitude_nonneg (m : positive) (e : Z) : (0 <= magnitude m e)%Q.
Proof.
  assert (H : 0 <= Z.pos m * 2 ^ e).
  { apply Z.mul_nonneg_nonneg; [lia|apply Z.pow_nonneg; lia]. }
  unfold magnitude. destruct e; unfold Qle; cbn [Qnum Qden inject_Z]; lia.
Qed.

(** 0.15 is not a double: [BPM_SNAP_THRESHOLD] is the largest double below
    it, so a double whose exact value is at least 0.15 is above the
    threshold. *)
Lemma pos_pow2_55 : Z.pos (2 ^ 55) = 36028797018963968.
Proof. vm_compute. reflexivity. Qed.

Lemma Qle_Zle (a c : Z) (b d : positive) :
  (a # b <= c # d)%Q -> a * Z.pos d <= c * Z.pos b.
Proof. intros H. exact H. Qed.

Lemma compare_cont_Eq (m n : positive) :
  Pos.compare_cont Eq m n = Pos.compare m n.
Proof. reflexivity. Qed.

Lemma threshold_exceeded_SF (X : spec_float) :
  valid_binary X = true ->
  match SF2Q X with
  | Some q => (3 # 20 <= q)%Q
  | None => False
  end ->
  SFleb X (S754_finite false 5404319552844595 (-55)) = false.
Proof.
  intros Hv.
  destruct X as [s|s| |s m e]; cbn [SF2Q].
  - intros H. apply (Qle_Zle 3 0 20 1) in H. lia.
  - contradiction.
  - contradiction.
  - apply valid_mantissa_bound in Hv.
    assert (H53 : Z.pos m < 9007199254740992) by exact Hv.
    destruct s.
    + intros H. pose proof (magnitude_nonneg m e) as Hm. exfalso.
      revert H Hm. generalize (magnitude m e). intros q. lra.
    + unfold SFleb, SFcompare, magnitude.
      destruct (Z.compare_spec e (-55)) as [He|He|He]; [| |reflexivity].
      * subst e. intros H. apply Qle_Zle in H. rewrite pos_pow2_55 in H.
        rewrite compare_cont_Eq.
        replace (Pos.compare m 5404319552844595) with Gt; [reflexivity|].
        symmetry. apply Pos.compare_gt_iff. lia.
      * intros H. exfalso. destruct e as [|p|p]; try lia.
        apply Qle_Zle in H. rewrite Pos2Z.inj_pow in H.
        assert (H56 : 2 ^ 56 <= 2 ^ Z.pos p) by (apply Z.pow_le_mono_r; lia).
        replace (2 ^ 56) with 72057594037927936 in H56 by (vm_compute; reflexivity).
        lia.
Qed.

Lemma threshold_exceeded (d : float) :
  value_at_least (3 # 20) d -> PrimFloat.leb d BPM_SNAP_THRESHOLD = false.
Proof.
  unfold value_at_least, value. intros H.
  rewrite leb_spec, Prim2SF_threshold.
  apply threshold_exceeded_SF; [apply Prim2SF_valid|exact H].
Qed.

(** C3: three consecutive measurements whose smoothed values are within
    the snap threshold of the same integer [B] make the estimator return
    exactly [B] on the third and on every further such measurement.  A
    measurement at least 0.15 away from its nearest integer resets the
    stability counter to 0 (and returns the smoothed value); a measurement
    within the threshold of an integer other than the tracked one sets the
    counter to 1 and makes that integer the tracked target. *)
Theorem snap_convergence :
  (forall (B : float) (ms : list (float * float)) (s : BPMState) (n : nat),
      Forall (fun m => qualifies B (snd m)) ms ->
      0 <= stability_counter s ->
      stability_counter s + Z.of_nat (length ms) < 2147483648 ->
      (2 <= n < length ms)%nat ->
      nth n (fst (snap_all ms s)) nan = B) /\
  (forall (raw x : float) (s : BPMState),
      value_at_least (3 # 20) (distance_to_nearest x) ->
      snap_bpm raw x s = (x, set_stability_counter 0 s)) /\
  (forall (raw x : float) (s : BPMState),
      PrimFloat.leb (distance_to_nearest x) BPM_SNAP_THRESHOLD = true ->
      PrimFloat.ltb (PrimFloat.abs (last_snapped_bpm s - round x)%float) 0.5%float
      = false ->
      snap_bpm raw x s
      = (x, set_last_snapped_bpm (round x) (set_stability_counter 1 s))).
Proof.
  split; [|split].
  - intros B ms s n Hall Hc Hlen [Hn2 Hn].
    destruct Hall as [|[raw x] ms Hq Hall]; [inversion Hn|].
    cbn [length] in Hlen, Hn. rewrite Nat2Z.inj_succ in Hlen.
    rewrite snap_all_cons. cbn [fst].
    destruct (snap_bpm_qualifying B raw x s Hq ltac:(lia)) as (Htr' & Hc' & _ & _).
    destruct n as [|n]; [lia|]. cbn [nth].
    apply snap_all_tracking; try assumption; lia.
  - intros raw x s Hfar. unfold snap_bpm. fold (distance_to_nearest x).
    now rewrite (threshold_exceeded _ Hfar).
  - intros raw x s Hle Htr. unfold snap_bpm. fold (distance_to_nearest x).
    rewrite Hle, Htr. reflexivity.
Qed.

Lemma snap_convergence_witness :
  let ms := [(120.2, 120.1); (119.9, 119.95); (120.0, 120.05); (120.1, 120.02)]%float in
  nth 2 (fst (snap_all ms initial_bpm_state)) nan = 120%float /\
  nth 3 (fst (snap_all ms initial_bpm_state)) nan = 120%float /\
  snap_bpm 120.4 120.5 initial_bpm_state
  = (120.5%float, set_stability_counter 0 initial_bpm_state) /\
  snap_bpm 90.0 90.1 (snd (snap_all ms initial_bpm_state))
  = (90.1%float,
     set_last_snapped_bpm 90 (set_stability_counter 1 (snd (snap_all ms initial_bpm_state)))).
Proof.
  intros ms. destruct snap_convergence as (Ha & Hb & Hc).
  assert (Hq : Forall (fun m => qualifies 120 (snd m)) ms).
  { repeat constructor; vm_compute; reflexivity. }
  split; [|split; [|split]].
  - apply Ha; [exact Hq|vm_compute; discriminate|vm_compute; reflexivity|].
    split; vm_compute; lia.
  - apply Ha; [exact Hq|vm_compute; discriminate|vm_compute; reflexivity|].
    split; vm_compute; lia.
  - apply Hb. vm_compute. discriminate.
  - change (90%float) with (round 90.1) at 2.
    apply Hc; vm_compute; reflexivity.
Defined.

(** ** Smoothing *)

Lemma smoothing_weight : (1.0 - SMOOTHING_FACTOR = 0.7)%float.
Proof. vm_compute. reflexivity. Qed.

Lemma current_bpm_take_measurement (e : Z) (g : Globals) :
  current_bpm (g_bpm_state (take_measurement e g))
  = fst (snap_bpm (raw_bpm_of e)
           (smooth (measurement_count (g_bpm_state g))
              (current_bpm (g_bpm_state g)) (raw_bpm_of e))
           (g_bpm_state g)).
Proof.
  unfold take_measurement.
  destruct (snap_bpm _ _ _) as [final s].
  unfold update_jack_transport_bpm. cbn [fst].
  destruct (g_jack_client _); [|reflexivity].
  cbn [negb]. destruct (PrimFloat.ltb _ _); reflexivity.
Qed.

(** C4: on every measurement that is not discarded the value handed to
    the snapping step is a blend of the stored tempo [current] and the
    clamped raw tempo [raw]: 0.1 current + 0.9 raw during the first five
    measurements or when the two are more than 10 apart; otherwise
    0.5 current + 0.5 raw during the first ten measurements or when they are
    more than 3 apart; otherwise 0.7 current + 0.3 raw. *)
Theorem adaptive_smoothing (now : Z) (g : Globals) :
  first_clock_received (g_bpm_state g) = true ->
  PULSES_PER_QUARTER <= wrap_int32 (pulse_count (g_bpm_state g) + 1) ->
  0 < elapsed_microseconds now (last_pulse_time (g_bpm_state g)) ->
  let raw := raw_bpm_of (elapsed_microseconds now (last_pulse_time (g_bpm_state g))) in
  let current := current_bpm (g_bpm_state g) in
  let mcount := measurement_count (g_bpm_state g) in
  let apart d := PrimFloat.ltb d (PrimFloat.abs (raw - current)%float) = true in
  exists smoothed : float,
    current_bpm (g_bpm_state (calculate_and_set_bpm now g))
    = fst (snap_bpm raw smoothed (g_bpm_state g)) /\
    ((mcount < 5 \/ apart 10.0%float) ->
     smoothed = (0.1 * current + 0.9 * raw)%float) /\
    (~ (mcount < 5 \/ apart 10.0%float) ->
     (mcount < 10 \/ apart 3.0%float) ->
     smoothed = (0.5 * current + 0.5 * raw)%float) /\
    (~ (mcount < 5 \/ apart 10.0%float) ->
     ~ (mcount < 10 \/ apart 3.0%float) ->
     smoothed = (0.7 * current + 0.3 * raw)%float).
Proof.
  intros Hfirst Hcount Hel raw current mcount apart.
  exists (smooth mcount current raw). split.
  - unfold calculate_and_set_bpm. rewrite Hfirst. cbn [negb].
    destruct (Z.leb_spec PULSES_PER_QUARTER
                (wrap_int32 (pulse_count (g_bpm_state g) + 1))); [|lia].
    destruct (Z.ltb_spec 0 (elapsed_microseconds now (last_pulse_time (g_bpm_state g))));
      [|lia].
    match goal with |- context [if ?b then _ else _] => destruct b end;
      apply current_bpm_take_measurement.
  - assert (Hor : forall k d,
               (mcount < k \/ apart d) <->
               (mcount <? k) || PrimFloat.ltb d (PrimFloat.abs (raw - current)%float)
               = true).
    { intros k d. unfold apart. rewrite orb_true_iff, Z.ltb_lt. reflexivity. }
    rewrite !Hor. unfold smooth. rewrite smoothing_weight.
    rewrite !(mul_comm current), !(mul_comm raw). unfold SMOOTHING_FACTOR.
    destruct ((mcount <? 5) || PrimFloat.ltb 10 (PrimFloat.abs (raw - current)%float)).
    + split; [reflexivity|]. split; intros Hn; exfalso; now apply Hn.
    + split; [discriminate|].
      destruct ((mcount <? 10) || PrimFloat.ltb 3 (PrimFloat.abs (raw - current)%float)).
      * split; [reflexivity|]. intros _ Hn. exfalso. now apply Hn.
      * split; [discriminate|reflexivity].
Qed.

Lemma adaptive_smoothing_witness :
  let g := feed_clocks (evenly_spaced 0 20000 24) (started 48000 0) in
  exists smoothed : float,
    current_bpm (g_bpm_state (calculate_and_set_bpm 480000000 g))
    = fst (snap_bpm 125 smoothed (g_bpm_state g)) /\
    smoothed = (0.1 * 120 + 0.9 * 125)%float.
Proof.
  intros g.
  destruct (adaptive_smoothing 480000000 g) as (x & H1 & H2 & _).
  - reflexivity.
  - vm_compute. discriminate.
  - vm_compute. reflexivity.
  - exists x. split.
    + exact H1.
    + apply H2. left. vm_compute. reflexivity.
Defined.

(** ** Number of digits *)

Lemma digits2_pos_lower (m : positive) : 2 ^ (Z.pos (digits2_pos m) - 1) <= Z.pos m.
Proof.
  induction m as [m IH|m IH|]; cbn [digits2_pos].
  - rewrite Pos2Z.inj_succ.
    replace (Z.succ (Z.pos (digits2_pos m)) - 1)
      with (Z.succ (Z.pos (digits2_pos m) - 1)) by lia.
    rewrite Z.pow_succ_r by lia. lia.
  - rewrite Pos2Z.inj_succ.
    replace (Z.succ (Z.pos (digits2_pos m)) - 1)
      with (Z.succ (Z.pos (digits2_pos m) - 1)) by lia.
    rewrite Z.pow_succ_r by lia. lia.
  - simpl. lia.
Qed.

Lemma digits2_pos_unique (m : positive) (d : Z) :
  2 ^ (d - 1) <= Z.pos m < 2 ^ d -> Z.pos (digits2_pos m) = d.
Proof.
  intros [Hlo Hhi].
  pose proof (digits2_pos_lower m) as Hl. pose proof (digits2_pos_bound m) as Hu.
  destruct (Z.lt_trichotomy (Z.pos (digits2_pos m)) d) as [H|[H|H]]; [|exact H|].
  - assert (2 ^ Z.pos (digits2_pos m) <= 2 ^ (d - 1)) by (apply Z.pow_le_mono_r; lia).
    lia.
  - assert (0 <= d).
    { destruct (Z.le_gt_cases 0 d); [assumption|].
      rewrite (Z.pow_neg_r 2 d) in Hhi by lia. lia. }
    assert (2 ^ d <= 2 ^ (Z.pos (digits2_pos m) - 1)) by (apply Z.pow_le_mono_r; lia).
    lia.
Qed.

(** ** Shifting a mantissa right *)

Lemma shr_1_nonneg (m : Z) (r s : bool) :
  0 <= m ->
  shr_1 (Build_shr_record m r s) = Build_shr_record (m / 2) (Z.odd m) (r || s).
Proof.
  intros Hm. destruct m as [|[p|p|]|p]; try lia; cbn [shr_1].
  - reflexivity.
  - f_equal. rewrite Pos2Z.inj_xI. symmetry.
    rewrite Z.add_comm, Z.mul_comm. rewrite Z.div_add by lia. reflexivity.
  - f_equal. rewrite Pos2Z.inj_xO. symmetry.
    rewrite Z.mul_comm. now rewrite Z.div_mul by lia.
  - reflexivity.
Qed.

Lemma iter_pos_nat {A : Type} (f : A -> A) (p : positive) (x : A) :
  iter_pos f p x = Nat.iter (Pos.to_nat p) f x.
Proof.
  revert x. induction p as [p IH|p IH|]; intros x; cbn [iter_pos].
  - rewrite Pos2Nat.inj_xI. rewrite !IH.
    replace (S (2 * Pos.to_nat p))%nat with (Pos.to_nat p + (Pos.to_nat p + 1))%nat by lia.
    rewrite !Nat.iter_add. reflexivity.
  - rewrite Pos2Nat.inj_xO. rewrite !IH.
    replace (2 * Pos.to_nat p)%nat with (Pos.to_nat p + Pos.to_nat p)%nat by lia.
    rewrite Nat.iter_add. reflexivity.
  - reflexivity.
Qed.

(** After [k + 1] shifts of an exact mantissa: the quotient, the last bit
    shifted out, and whether anything below it was set. *)
Lemma shr_iter_exact (m : Z) (k : nat) :
  0 <= m ->
  Nat.iter (S k) shr_1 (Build_shr_record m false false)
  = Build_shr_record (m / 2 ^ (Z.of_nat k + 1))
      (Z.odd (m / 2 ^ Z.of_nat k))
      (negb (m mod 2 ^ Z.of_nat k =? 0)).
Proof.
  intros Hm. induction k as [|k IH].
  - cbn [Nat.iter]. rewrite shr_1_nonneg by assumption. cbn [Z.of_nat].
    rewrite Z.pow_0_r, Z.div_1_r, Z.mod_1_r. reflexivity.
  - change (Nat.iter (S (S k)) shr_1 ?x) with (shr_1 (Nat.iter (S k) shr_1 x)).
    rewrite IH, shr_1_nonneg by (apply Z.div_pos; [lia|apply Z.pow_pos_nonneg; lia]).
    rewrite Nat2Z.inj_succ.
    replace (Z.succ (Z.of_nat k)) with (Z.of_nat k + 1) by lia.
    assert (H2k : 0 < 2 ^ Z.of_nat k) by (apply Z.pow_pos_nonneg; lia).
    f_equal.
    + rewrite Z.div_div by lia.
      rewrite (Z.pow_add_r 2 (Z.of_nat k + 1) 1) by lia. reflexivity.
    + rewrite (Z.pow_add_r 2 (Z.of_nat k) 1) by lia. change (2 ^ 1) with 2.
      rewrite Z.rem_mul_r by lia.
      rewrite Zodd_mod.
      pose proof (Z.mod_pos_bound m (2 ^ Z.of_nat k) H2k).
      pose proof (Z.mod_pos_bound (m / 2 ^ Z.of_nat k) 2 ltac:(lia)).
      destruct (Z.eqb_spec (m mod 2 ^ Z.of_nat k) 0) as [E|E];
        destruct (Z.eqb_spec ((m / 2 ^ Z.of_nat k) mod 2) 1) as [E1|E1];
        cbn [negb orb];
        match goal with |- _ = negb (?a =? 0) => destruct (Z.eqb_spec a 0) end;
        cbn [negb]; try reflexivity; nia.
Qed.

(** Rounding what the shift leaves is rounding the quotient to nearest,
    ties to even. *)
Lemma shr_round_exact (m : Z) (p : positive) :
  0 <= m ->
  let mrs := iter_pos shr_1 p (shr_record_of_loc m loc_Exact) in
  round_nearest_even (shr_m mrs) (loc_of_shr_record mrs) = rne m (Z.pos p).
Proof.
  intros Hm mrs. unfold mrs. clear mrs. rewrite iter_pos_nat.
  destruct (Pos2Nat.is_succ p) as [k Hk]. rewrite Hk.
  assert (Hp : Z.pos p = Z.of_nat k + 1) by lia.
  cbn [shr_record_of_loc]. rewrite shr_iter_exact by assumption.
  rewrite Hp. unfold rne. set (P := 2 ^ Z.of_nat k).
  assert (HP : 0 < P) by (apply Z.pow_pos_nonneg; lia).
  rewrite (Z.pow_add_r 2 (Z.of_nat k) 1) by lia. change (2 ^ 1) with 2. fold P.
  rewrite Z.rem_mul_r by lia. rewrite Zodd_mod.
  pose proof (Z.mod_pos_bound m P HP) as Hr0.
  pose proof (Z.mod_pos_bound (m / P) 2 ltac:(lia)) as Hb.
  cbn [shr_m loc_of_shr_record].
  destruct (Z.eqb_spec ((m / P) mod 2) 1) as [E1|E1];
    destruct (Z.eqb_spec (m mod P) 0) as [E0|E0]; cbn [negb round_nearest_even].
  - rewrite E1, E0. replace (2 * (0 + P * 1)) with (P * 2) by lia.
    now rewrite Z.compare_refl.
  - replace (2 * (m mod P + P * ((m / P) mod 2)) ?= P * 2) with Gt; [reflexivity|].
    symmetry. apply Z.compare_gt_iff. nia.
  - replace (2 * (m mod P + P * ((m / P) mod 2)) ?= P * 2) with Lt; [reflexivity|].
    symmetry. apply Z.compare_lt_iff. nia.
  - replace (2 * (m mod P + P * ((m / P) mod 2)) ?= P * 2) with Lt; [reflexivity|].
    symmetry. apply Z.compare_lt_iff. nia.
Qed.

Lemma rne_0 (m : Z) : rne m 0 = m.
Proof.
  unfold rne. rewrite Z.pow_0_r, Z.div_1_r, Z.mod_1_r. reflexivity.
Qed.

Lemma rne_bounds (m p : Z) :
  0 <= p -> m / 2 ^ p <= rne m p <= m / 2 ^ p + 1.
Proof.
  intros Hp. unfold rne.
  destruct (2 * (m mod 2 ^ p) ?= 2 ^ p); [destruct (Z.even _)| |]; lia.
Qed.

(** Rounding to nearest is monotone: [m1 / 2^p1 <= m2 / 2^p2] gives
    [rne m1 p1 <= rne m2 p2]. *)
Lemma rne_monotone (m1 p1 m2 p2 : Z) :
  0 <= p1 -> 0 <= p2 -> 0 <= m1 ->
  m1 * 2 ^ p2 <= m2 * 2 ^ p1 ->
  rne m1 p1 <= rne m2 p2.
Proof.
  intros Hp1 Hp2 Hm1 Hle.
  assert (HD1 : 0 < 2 ^ p1) by (apply Z.pow_pos_nonneg; lia).
  assert (HD2 : 0 < 2 ^ p2) by (apply Z.pow_pos_nonneg; lia).
  pose proof (rne_bounds m1 p1 Hp1) as B1. pose proof (rne_bounds m2 p2 Hp2) as B2.
  unfold rne in *.
  set (D1 := 2 ^ p1) in *. set (D2 := 2 ^ p2) in *.
  pose proof (Z.div_mod m1 D1 ltac:(lia)) as E1.
  pose proof (Z.div_mod m2 D2 ltac:(lia)) as E2.
  pose proof (Z.mod_pos_bound m1 D1 HD1) as R1.
  pose proof (Z.mod_pos_bound m2 D2 HD2) as R2.
  set (q1 := m1 / D1) in *. set (q2 := m2 / D2) in *.
  set (r1 := m1 mod D1) in *. set (r2 := m2 mod D2) in *.
  destruct (Z.lt_ge_cases q1 q2) as [Hq|Hq]; [lia|].
  assert (Hex : D1 * D2 * q1 + r1 * D2 <= D1 * D2 * q2 + r2 * D1).
  { rewrite E1, E2 in Hle. lia. }
  assert (Hr2 : r2 * D1 < D2 * D1) by (apply Z.mul_lt_mono_pos_r; lia).
  assert (Hr1 : 0 <= r1 * D2) by (apply Z.mul_nonneg_nonneg; lia).
  assert (HX : 0 < D1 * D2) by (apply Z.mul_pos_pos; lia).
  assert (Hqq : q1 = q2).
  { destruct (Z.eq_dec q1 q2) as [|Hne]; [assumption|exfalso].
    assert (D1 * D2 * (q2 + 1) <= D1 * D2 * q1)
      by (apply Z.mul_le_mono_nonneg_l; lia).
    lia. }
  assert (Hrr : r1 * D2 <= r2 * D1) by (rewrite Hqq in Hex; lia).
  rewrite <- Hqq in *. clear B1 B2.
  destruct (Z.compare_spec (2 * r1) D1) as [C1|C1|C1];
    destruct (Z.compare_spec (2 * r2) D2) as [C2|C2|C2];
    try destruct (Z.even q1); try lia; nia.
Qed.

(** ** Rounding an exact result to binary64 *)

Lemma fexp_normal (d e : Z) :
  53 <= d -> -1074 <= e -> fexp prec emax (d + e) - e = d - 53.
Proof.
  intros Hd He. unfold fexp.
  change (SpecFloat.emin prec emax) with (-1074). change prec with 53. lia.
Qed.

Lemma shr_fexp_first (m : positive) (e : Z) :
  53 <= Z.pos (digits2_pos m) -> -1074 <= e ->
  let p := Z.pos (digits2_pos m) - 53 in
  exists mrs,
    shr_fexp prec emax (Z.pos m) e loc_Exact = (mrs, e + p) /\
    round_nearest_even (shr_m mrs) (loc_of_shr_record mrs) = rne (Z.pos m) p.
Proof.
  intros Hd He p. unfold shr_fexp. cbn [Zdigits2].
  rewrite fexp_normal by assumption. fold p. unfold shr.
  destruct p as [|pp|pp] eqn:Hp; try lia.
  - eexists. split; [f_equal; lia|]. cbn. now rewrite rne_0.
  - eexists. split; [reflexivity|]. apply shr_round_exact. lia.
Qed.

Lemma shr_fexp_normal (n : positive) (e : Z) :
  2 ^ 52 <= Z.pos n < 2 ^ 53 -> -1074 <= e ->
  shr_fexp prec emax (Z.pos n) e loc_Exact
  = (Build_shr_record (Z.pos n) false false, e).
Proof.
  intros Hn He. unfold shr_fexp. cbn [Zdigits2].
  rewrite (digits2_pos_unique n 53) by exact Hn.
  rewrite fexp_normal by lia. reflexivity.
Qed.

Lemma shr_fexp_carry (e : Z) :
  -1074 <= e ->
  shr_fexp prec emax (2 ^ 53) e loc_Exact
  = (Build_shr_record (2 ^ 52) false false, e + 1).
Proof.
  intros He. unfold shr_fexp.
  replace (Zdigits2 (2 ^ 53)) with 54 by (vm_compute; reflexivity).
  rewrite fexp_normal by lia. reflexivity.
Qed.

Lemma rne_normal_bounds (m : positive) :
  53 <= Z.pos (digits2_pos m) ->
  2 ^ 52 <= rne (Z.pos m) (Z.pos (digits2_pos m) - 53) <= 2 ^ 53.
Proof.
  intros Hd. set (d := Z.pos (digits2_pos m)) in *.
  pose proof (digits2_pos_lower m) as Hl. pose proof (digits2_pos_bound m) as Hu.
  fold d in Hl, Hu.
  pose proof (rne_bounds (Z.pos m) (d - 53) ltac:(lia)) as Hb.
  assert (HD : 0 < 2 ^ (d - 53)) by (apply Z.pow_pos_nonneg; lia).
  assert (H1 : 2 ^ 52 <= Z.pos m / 2 ^ (d - 53)).
  { apply Z.div_le_lower_bound; [lia|].
    rewrite <- Z.pow_add_r by lia. replace (d - 53 + 52) with (d - 1) by lia.
    exact Hl. }
  assert (H2 : Z.pos m / 2 ^ (d - 53) < 2 ^ 53).
  { apply Z.div_lt_upper_bound; [lia|].
    rewrite <- Z.pow_add_r by lia. replace (d - 53 + 53) with d by lia.
    exact Hu. }
  lia.
Qed.

(** The value an exact positive result [m * 2^e] is rounded to: the
    mantissa is cut to 53 digits with [rne]; when that carries into a 54th
    digit the exponent moves up by one. *)
Lemma binary_round_aux_exact (s : bool) (m : positive) (e : Z) :
  53 <= Z.pos (digits2_pos m) ->
  -1074 <= e ->
  e + (Z.pos (digits2_pos m) - 53) < 971 ->
  let p := Z.pos (digits2_pos m) - 53 in
  let n := rne (Z.pos m) p in
  binary_round_aux prec emax s (Z.pos m) e loc_Exact
  = if n <? 2 ^ 53 then S754_finite s (Z.to_pos n) (e + p)
    else S754_finite s (Z.to_pos (2 ^ 52)) (e + p + 1).
Proof.
  intros Hd He Hmax p n.
  pose proof (rne_normal_bounds m Hd) as Hn. fold p n in Hn.
  unfold binary_round_aux.
  destruct (shr_fexp_first m e Hd He) as (mrs & -> & Hr). fold p in Hr |- *.
  rewrite Hr. fold n.
  destruct (Z.ltb_spec n (2 ^ 53)) as [Hlt|Hge].
  - assert (Hpos : n = Z.pos (Z.to_pos n)).
    { rewrite Z2Pos.id; [reflexivity|]. apply Z.lt_le_trans with (2 := proj1 Hn).
      reflexivity. }
    rewrite Hpos at 1. rewrite shr_fexp_normal by (rewrite <- ?Hpos; lia).
    cbn [shr_m]. change (emax - prec) with 971.
    destruct (Z.leb_spec (e + p) 971); [reflexivity|lia].
  - assert (Hn53 : n = 2 ^ 53) by lia. rewrite Hn53.
    rewrite shr_fexp_carry by lia. cbn [shr_m].
    change (emax - prec) with 971.
    destruct (Z.leb_spec (e + p + 1) 971); [reflexivity|lia].
Qed.

(** ** Values on a common scale *)

Lemma scaled_shift (k j m e : Z) :
  0 <= e + k -> 0 <= j -> scaled (k + j) m e = scaled k m e * 2 ^ j.
Proof.
  intros Hk Hj. unfold scaled.
  replace (e + (k + j)) with (e + k + j) by lia.
  rewrite Z.pow_add_r by lia. lia.
Qed.

(** Orders do not depend on the scale. *)
Lemma scaled_le_rescale (k k' m1 e1 m2 e2 : Z) :
  0 <= e1 + k -> 0 <= e2 + k -> 0 <= e1 + k' -> 0 <= e2 + k' ->
  scaled k m1 e1 <= scaled k m2 e2 ->
  scaled k' m1 e1 <= scaled k' m2 e2.
Proof.
  intros H1 H2 H1' H2' Hle.
  destruct (Z.le_ge_cases k k') as [Hk|Hk].
  - replace k' with (k + (k' - k)) by lia.
    rewrite !scaled_shift by lia.
    apply Z.mul_le_mono_nonneg_r; [apply Z.pow_nonneg; lia|exact Hle].
  - replace k with (k' + (k - k')) in Hle by lia.
    rewrite !scaled_shift in Hle by lia.
    apply Z.mul_le_mono_pos_r in Hle; [exact Hle|apply Z.pow_pos_nonneg; lia].
Qed.

Lemma scaled_pow_bounds (k m e d : Z) :
  0 <= e + k -> 1 <= d -> 2 ^ (d - 1) <= m < 2 ^ d ->
  2 ^ (d - 1 + e + k) <= scaled k m e < 2 ^ (d + e + k).
Proof.
  intros Hk Hd [Hlo Hhi]. unfold scaled.
  assert (HP : 0 < 2 ^ (e + k)) by (apply Z.pow_pos_nonneg; lia).
  replace (d - 1 + e + k) with (d - 1 + (e + k)) by lia.
  replace (d + e + k) with (d + (e + k)) by lia.
  rewrite (Z.pow_add_r 2 (d - 1) (e + k)), (Z.pow_add_r 2 d (e + k)) by lia.
  split.
  - apply Z.mul_le_mono_nonneg_r; lia.
  - apply Zmult_lt_compat_r; lia.
Qed.

(** Rounding to 53 digits is monotone in the value rounded. *)
Lemma round_monotone (k : Z) (m1 m2 : positive) (e1 e2 : Z) :
  53 <= Z.pos (digits2_pos m1) -> 53 <= Z.pos (digits2_pos m2) ->
  0 <= e1 + k -> 0 <= e2 + k ->
  scaled k (Z.pos m1) e1 <= scaled k (Z.pos m2) e2 ->
  let p1 := Z.pos (digits2_pos m1) - 53 in
  let p2 := Z.pos (digits2_pos m2) - 53 in
  scaled k (rne (Z.pos m1) p1) (e1 + p1) <= scaled k (rne (Z.pos m2) p2) (e2 + p2).
Proof.
  intros Hd1 Hd2 Hk1 Hk2 Hle p1 p2.
  pose proof (rne_normal_bounds m1 Hd1) as Hn1.
  pose proof (rne_normal_bounds m2 Hd2) as Hn2.
  fold p1 in Hn1. fold p2 in Hn2.
  pose proof (scaled_pow_bounds k (Z.pos m1) e1 (Z.pos (digits2_pos m1)) Hk1 ltac:(lia)
                (conj (digits2_pos_lower m1) (digits2_pos_bound m1))) as B1.
  pose proof (scaled_pow_bounds k (Z.pos m2) e2 (Z.pos (digits2_pos m2)) Hk2 ltac:(lia)
                (conj (digits2_pos_lower m2) (digits2_pos_bound m2))) as B2.
  set (n1 := rne (Z.pos m1) p1) in *. set (n2 := rne (Z.pos m2) p2) in *.
  assert (Hp1 : 0 <= p1) by (unfold p1; lia).
  assert (Hp2 : 0 <= p2) by (unfold p2; lia).
  replace (Z.pos (digits2_pos m1)) with (p1 + 53) in B1 by (unfold p1; lia).
  replace (Z.pos (digits2_pos m2)) with (p2 + 53) in B2 by (unfold p2; lia).
  destruct (Z.lt_trichotomy (e1 + p1) (e2 + p2)) as [H|[H|H]].
  - (* the first result lies a binade below the second *)
    unfold scaled.
    assert (HP1 : 0 < 2 ^ (e1 + p1 + k)) by (apply Z.pow_pos_nonneg; lia).
    assert (HP2 : 0 < 2 ^ (e2 + p2 + k)) by (apply Z.pow_pos_nonneg; lia).
    apply Z.le_trans with (2 ^ 53 * 2 ^ (e1 + p1 + k)).
    { apply Z.mul_le_mono_nonneg_r; lia. }
    apply Z.le_trans with (2 ^ 52 * 2 ^ (e2 + p2 + k)).
    { rewrite <- !Z.pow_add_r by lia. apply Z.pow_le_mono_r; lia. }
    apply Z.mul_le_mono_nonneg_r; lia.
  - (* same binade *)
    rewrite H. unfold scaled.
    apply Z.mul_le_mono_nonneg_r; [apply Z.pow_nonneg; lia|].
    apply rne_monotone; try lia.
    unfold scaled in Hle.
    assert (Hc : Z.pos m1 * 2 ^ p2 * 2 ^ (e1 + p1 + k)
                 <= Z.pos m2 * 2 ^ p1 * 2 ^ (e1 + p1 + k)).
    { replace (Z.pos m1 * 2 ^ p2 * 2 ^ (e1 + p1 + k))
        with (Z.pos m1 * 2 ^ (e1 + k) * 2 ^ (p1 + p2)).
      2:{ rewrite <- !Z.mul_assoc, <- !Z.pow_add_r by lia. do 2 f_equal. lia. }
      replace (Z.pos m2 * 2 ^ p1 * 2 ^ (e1 + p1 + k))
        with (Z.pos m2 * 2 ^ (e2 + k) * 2 ^ (p1 + p2)).
      2:{ rewrite <- !Z.mul_assoc, <- !Z.pow_add_r by lia. do 2 f_equal. lia. }
      apply Z.mul_le_mono_nonneg_r; [apply Z.pow_nonneg; lia|exact Hle]. }
    apply Z.mul_le_mono_pos_r in Hc; [exact Hc|apply Z.pow_pos_nonneg; lia].
  - (* impossible: the first value would exceed the second *)
    exfalso.
    assert (2 ^ (p2 + 53 + e2 + k) <= 2 ^ (p1 + 53 - 1 + e1 + k))
      by (apply Z.pow_le_mono_r; lia).
    lia.
Qed.

Lemma binary_round_aux_exact_value (k : Z) (m : positive) (e : Z) :
  53 <= Z.pos (digits2_pos m) ->
  -1074 <= e ->
  e + (Z.pos (digits2_pos m) - 53) < 971 ->
  0 <= e + k ->
  let p := Z.pos (digits2_pos m) - 53 in
  let r := binary_round_aux prec emax false (Z.pos m) e loc_Exact in
  posnormal (e + p) (e + p + 1) r /\
  SFscaled k r = scaled k (rne (Z.pos m) p) (e + p).
Proof.
  intros Hd He Hmax Hk p r. unfold r.
  rewrite binary_round_aux_exact by assumption. fold p.
  pose proof (rne_normal_bounds m Hd) as Hn. fold p in Hn.
  destruct (Z.ltb_spec (rne (Z.pos m) p) (2 ^ 53)) as [Hlt|Hge];
    cbn [posnormal SFscaled].
  - rewrite Z2Pos.id by lia. repeat split; lia.
  - replace (rne (Z.pos m) p) with (2 ^ 53) by lia.
    rewrite Z2Pos.id by lia. repeat split; try lia.
    unfold scaled. replace (e + p + 1 + k) with (1 + (e + p + k)) by lia.
    rewrite (Z.pow_add_r 2 1 (e + p + k)) by lia.
    change (2 ^ 53) with (2 ^ 52 * 2 ^ 1). lia.
Qed.

(** ** Comparing normal doubles *)

Lemma posnormal_scaled_bounds (k lo hi : Z) (x : spec_float) :
  posnormal lo hi x -> 0 <= lo + k ->
  exists e, lo <= e <= hi /\
            2 ^ (52 + e + k) <= SFscaled k x < 2 ^ (53 + e + k).
Proof.
  destruct x as [| | |[] m e]; try contradiction.
  intros [Hm He] Hk. exists e. split; [exact He|].
  cbn [SFscaled].
  apply (scaled_pow_bounds k (Z.pos m) e 53); [lia|lia|exact Hm].
Qed.

Lemma SFleb_scaled (k lo hi lo' hi' : Z) (x y : spec_float) :
  posnormal lo hi x -> posnormal lo' hi' y -> 0 <= lo + k -> 0 <= lo' + k ->
  (SFleb x y = true <-> SFscaled k x <= SFscaled k y).
Proof.
  destruct x as [| | |[] mx ex]; try contradiction.
  destruct y as [| | |[] my ey]; try contradiction.
  intros [Hmx Hex] [Hmy Hey] Hk Hk'.
  pose proof (scaled_pow_bounds k (Z.pos mx) ex 53 ltac:(lia) ltac:(lia) Hmx) as Bx.
  pose proof (scaled_pow_bounds k (Z.pos my) ey 53 ltac:(lia) ltac:(lia) Hmy) as By.
  cbn [SFscaled]. unfold SFleb, SFcompare.
  destruct (Z.compare_spec ex ey) as [E|E|E].
  - subst ey. rewrite compare_cont_Eq. unfold scaled.
    assert (HP : 0 < 2 ^ (ex + k)) by (apply Z.pow_pos_nonneg; lia).
    destruct (Pos.compare_spec mx my) as [C|C|C]; split; intros H;
      try reflexivity; try discriminate.
    + subst. lia.
    + apply Z.mul_le_mono_nonneg_r; lia.
    + apply Z.mul_le_mono_pos_r in H; lia.
  - split; [intros _|reflexivity].
    assert (2 ^ (53 + ex + k) <= 2 ^ (53 - 1 + ey + k)) by (apply Z.pow_le_mono_r; lia).
    lia.
  - split; [discriminate|intros H; exfalso].
    assert (2 ^ (53 + ey + k) <= 2 ^ (53 - 1 + ex + k)) by (apply Z.pow_le_mono_r; lia).
    lia.
Qed.

(** A double between two positive normal doubles is positive and normal,
    with an exponent between theirs. *)
Lemma between_posnormal (lo hi lo' hi' : Z) (a b x : spec_float) :
  posnormal lo hi a -> posnormal lo' hi' b -> -1074 < lo ->
  valid_binary x = true ->
  SFleb a x = true -> SFleb x b = true ->
  posnormal lo hi' x.
Proof.
  destruct a as [| | |[] ma ea]; try contradiction.
  destruct b as [| | |[] mb eb]; try contradiction.
  intros [Hma Hea] [Hmb Heb] Hlo Hv Hax Hxb.
  destruct x as [sx|sx| |sx mx ex].
  - destruct sx; discriminate Hax.
  - destruct sx; discriminate.
  - discriminate.
  - destruct sx; [discriminate|].
    unfold SFleb, SFcompare in Hax, Hxb.
    assert (Hex1 : ea <= ex).
    { destruct (Z.compare_spec ea ex); try lia; discriminate. }
    assert (Hex2 : ex <= eb).
    { destruct (Z.compare_spec ex eb); try lia; discriminate. }
    cbn [posnormal]. split; [|lia].
    pose proof (valid_mantissa_bound _ _ _ Hv) as Hu.
    split; [|exact Hu].
    unfold SpecFloat.valid_binary, bounded, canonical_mantissa, fexp in Hv.
    apply andb_true_iff in Hv. destruct Hv as [Hv _]. apply Z.eqb_eq in Hv.
    change (SpecFloat.emin prec emax) with (-1074) in Hv. change prec with 53 in Hv.
    assert (Hd : Z.pos (digits2_pos mx) = 53) by lia.
    pose proof (digits2_pos_lower mx) as Hl. rewrite Hd in Hl. exact Hl.
Qed.

(** ** Products and sums of normal doubles *)

Lemma digits2_pos_ge (m : positive) (n : Z) :
  2 ^ (n - 1) <= Z.pos m -> n <= Z.pos (digits2_pos m).
Proof.
  intros H. pose proof (digits2_pos_bound m) as Hu.
  destruct (Z.le_gt_cases n (Z.pos (digits2_pos m))) as [|Hgt]; [assumption|].
  assert (2 ^ Z.pos (digits2_pos m) <= 2 ^ (n - 1)) by (apply Z.pow_le_mono_r; lia).
  lia.
Qed.

Lemma digits2_pos_le (m : positive) (n : Z) :
  0 <= n -> Z.pos m < 2 ^ n -> Z.pos (digits2_pos m) <= n.
Proof.
  intros Hn H. pose proof (digits2_pos_lower m) as Hl.
  destruct (Z.le_gt_cases (Z.pos (digits2_pos m)) n) as [|Hgt]; [assumption|].
  assert (2 ^ n <= 2 ^ (Z.pos (digits2_pos m) - 1)) by (apply Z.pow_le_mono_r; lia).
  lia.
Qed.

Lemma rounds_to_posnormal (m : positive) (e : Z) (r : spec_float) :
  rounds_to m e r ->
  posnormal (e + (Z.pos (digits2_pos m) - 53))
    (e + (Z.pos (digits2_pos m) - 53) + 1) r.
Proof.
  intros (-> & Hd & He & Hmax).
  apply (binary_round_aux_exact_value 1074 m e Hd He Hmax). lia.
Qed.

Lemma rounds_to_monotone (k : Z) (m1 m2 : positive) (e1 e2 : Z)
    (r1 r2 : spec_float) :
  rounds_to m1 e1 r1 -> rounds_to m2 e2 r2 ->
  0 <= e1 + k -> 0 <= e2 + k ->
  scaled k (Z.pos m1) e1 <= scaled k (Z.pos m2) e2 ->
  SFleb r1 r2 = true.
Proof.
  intros (-> & Hd1 & He1 & Hmax1) (-> & Hd2 & He2 & Hmax2) Hk1 Hk2 Hle.
  destruct (binary_round_aux_exact_value k m1 e1 Hd1 He1 Hmax1 Hk1) as [P1 V1].
  destruct (binary_round_aux_exact_value k m2 e2 Hd2 He2 Hmax2 Hk2) as [P2 V2].
  apply (SFleb_scaled k _ _ _ _ _ _ P1 P2); try lia.
  rewrite V1, V2. now apply round_monotone.
Qed.

Lemma SF64mul_rounds (lx hx ly hy : Z) (x y : spec_float) :
  posnormal lx hx x -> posnormal ly hy y ->
  -1074 <= lx + ly -> hx + hy + 53 < 971 ->
  match x, y with
  | S754_finite _ mx ex, S754_finite _ my ey =>
      rounds_to (mx * my) (ex + ey) (SF64mul x y)
  | _, _ => False
  end.
Proof.
  destruct x as [| | |[] mx ex]; try contradiction.
  destruct y as [| | |[] my ey]; try contradiction.
  intros [Hmx Hex] [Hmy Hey] Hlo Hhi.
  assert (Hprod : 2 ^ 104 <= Z.pos (mx * my) < 2 ^ 106).
  { rewrite Pos2Z.inj_mul.
    change (2 ^ 104) with (2 ^ 52 * 2 ^ 52). change (2 ^ 106) with (2 ^ 53 * 2 ^ 53).
    split; [apply Z.mul_le_mono_nonneg; lia|apply Z.mul_lt_mono_nonneg; lia]. }
  pose proof (digits2_pos_ge (mx * my) 105 (proj1 Hprod)) as Hd1.
  pose proof (digits2_pos_le (mx * my) 106 ltac:(lia) (proj2 Hprod)) as Hd2.
  repeat split; try lia. 
Qed.

Lemma pos_iter_xO (m d : positive) : Z.pos (Pos.iter xO m d) = Z.pos m * 2 ^ Z.pos d.
Proof.
  induction d as [|d IH] using Pos.peano_ind.
  - cbn [Pos.iter]. lia.
  - rewrite Pos.iter_succ, Pos2Z.inj_xO, IH, Pos2Z.inj_succ, Z.pow_succ_r by lia. lia.
Qed.

Lemma shl_align_value (m : positive) (e e' : Z) :
  e' <= e -> Z.pos (fst (shl_align m e e')) = Z.pos m * 2 ^ (e - e').
Proof.
  intros H. unfold shl_align.
  destruct (e' - e) as [|d|d] eqn:Hd; cbn [fst]; try lia.
  - replace (e - e') with 0 by lia. lia.
  - rewrite pos_iter_xO. f_equal. f_equal. lia.
Qed.

Lemma shl_align_none (m : positive) (e e' : Z) :
  e <= e' -> shl_align m e e' = (m, e).
Proof.
  intros H. unfold shl_align. destruct (e' - e) eqn:Hd; try reflexivity. lia.
Qed.

Lemma SF64add_rounds (k : Z) (x y : spec_float) :
  posnormal (-500) 400 x -> posnormal (-500) 400 y -> 500 <= k ->
  exists (m : positive) (e : Z),
    rounds_to m e (SF64add x y) /\ 0 <= e + k /\
    scaled k (Z.pos m) e = SFscaled k x + SFscaled k y.
Proof.
  destruct x as [| | |[] mx ex]; try contradiction.
  destruct y as [| | |[] my ey]; try contradiction.
  intros [Hmx Hex] [Hmy Hey] Hk.
  unfold SF64add, SFadd, cond_Zopp.
  set (ez := Z.min ex ey).
  rewrite !shl_align_value by (unfold ez; lia).
  assert (Hx : 0 < 2 ^ (ex - ez)) by (apply Z.pow_pos_nonneg; unfold ez; lia).
  assert (Hy : 0 < 2 ^ (ey - ez)) by (apply Z.pow_pos_nonneg; unfold ez; lia).
  set (M := Z.pos mx * 2 ^ (ex - ez) + Z.pos my * 2 ^ (ey - ez)).
  assert (HM : 0 < M) by (unfold M; nia).
  destruct M as [|M'|M'] eqn:HMeq; try lia.
  cbn [binary_normalize]. unfold binary_round.
  assert (Hlow : 2 ^ 52 <= Z.pos M').
  { rewrite <- HMeq. unfold M.
    destruct (Z.min_spec ex ey) as [[_ E]|[_ E]]; fold ez in E; rewrite E.
    - rewrite Z.sub_diag, Z.pow_0_r. nia.
    - rewrite Z.sub_diag, Z.pow_0_r. nia. }
  assert (Hhigh : Z.pos M' < 2 ^ (54 + (Z.max ex ey - ez))).
  { rewrite <- HMeq. unfold M.
    replace (54 + (Z.max ex ey - ez)) with (1 + (53 + (Z.max ex ey - ez))) by lia.
    rewrite (Z.pow_add_r 2 1), (Z.pow_add_r 2 53) by (unfold ez; lia).
    change (2 ^ 1) with 2.
    assert (2 ^ (ex - ez) <= 2 ^ (Z.max ex ey - ez))
      by (apply Z.pow_le_mono_r; unfold ez; lia).
    assert (2 ^ (ey - ez) <= 2 ^ (Z.max ex ey - ez))
      by (apply Z.pow_le_mono_r; unfold ez; lia).
    assert (HP : 0 < 2 ^ (Z.max ex ey - ez))
      by (apply Z.pow_pos_nonneg; unfold ez; lia).
    assert (Z.pos mx * 2 ^ (ex - ez) < 2 ^ 53 * 2 ^ (Z.max ex ey - ez)).
    { apply Z.le_lt_trans with (Z.pos mx * 2 ^ (Z.max ex ey - ez));
        [apply Z.mul_le_mono_nonneg_l; lia|apply Zmult_lt_compat_r; lia]. }
    assert (Z.pos my * 2 ^ (ey - ez) < 2 ^ 53 * 2 ^ (Z.max ex ey - ez)).
    { apply Z.le_lt_trans with (Z.pos my * 2 ^ (Z.max ex ey - ez));
        [apply Z.mul_le_mono_nonneg_l; lia|apply Zmult_lt_compat_r; lia]. }
    lia. }
  pose proof (digits2_pos_ge M' 53 Hlow) as Hd1.
  assert (Hd2 : Z.pos (digits2_pos M') <= 54 + (Z.max ex ey - ez)).
  { apply digits2_pos_le; [unfold ez; lia|exact Hhigh]. }
  rewrite shl_align_none.
  2:{ unfold fexp. change (SpecFloat.emin prec emax) with (-1074).
      change prec with 53. lia. }
  exists M', ez. split; [|split].
  - repeat split; unfold ez in *; lia.
  - unfold ez; lia.
  - rewrite <- HMeq. unfold M, SFscaled, scaled.
    rewrite Z.mul_add_distr_r, <- !Z.mul_assoc, <- !Z.pow_add_r by (unfold ez; lia).
    f_equal; do 2 f_equal; lia.
Qed.

Lemma scaled_mul (k1 k2 m1 e1 m2 e2 : Z) :
  0 <= e1 + k1 -> 0 <= e2 + k2 ->
  scaled (k1 + k2) (m1 * m2) (e1 + e2) = scaled k1 m1 e1 * scaled k2 m2 e2.
Proof.
  intros H1 H2. unfold scaled.
  replace (e1 + e2 + (k1 + k2)) with ((e1 + k1) + (e2 + k2)) by lia.
  rewrite Z.pow_add_r by lia. lia.
Qed.

Lemma SF64mul_monotone (x x' w : spec_float) :
  posnormal (-500) 400 x -> posnormal (-500) 400 x' -> posnormal (-500) 400 w ->
  SFleb x x' = true -> SFleb (SF64mul x w) (SF64mul x' w) = true.
Proof.
  intros Px Px' Pw Hle.
  pose proof (SF64mul_rounds _ _ _ _ x w Px Pw ltac:(lia) ltac:(lia)) as R.
  pose proof (SF64mul_rounds _ _ _ _ x' w Px' Pw ltac:(lia) ltac:(lia)) as R'.
  apply (SFleb_scaled 500 _ _ _ _ _ _ Px Px') in Hle; try lia.
  destruct x as [| | |[] mx ex]; try contradiction.
  destruct x' as [| | |[] mx' ex']; try contradiction.
  destruct w as [| | |[] mw ew]; try contradiction.
  destruct Px as [_ Hex], Px' as [_ Hex'], Pw as [_ Hew].
  apply (rounds_to_monotone 1000 _ _ _ _ _ _ R R'); try lia.
  rewrite !Pos2Z.inj_mul.
  rewrite (scaled_mul 500 500 (Z.pos mx) ex), (scaled_mul 500 500 (Z.pos mx') ex')
    by lia.
  cbn [SFscaled] in Hle.
  apply Z.mul_le_mono_nonneg_r; [|exact Hle].
  unfold scaled. apply Z.mul_nonneg_nonneg; [lia|apply Z.pow_nonneg; lia].
Qed.

Lemma SF64add_monotone (a a' b b' : spec_float) :
  posnormal (-500) 400 a -> posnormal (-500) 400 a' ->
  posnormal (-500) 400 b -> posnormal (-500) 400 b' ->
  SFleb a a' = true -> SFleb b b' = true ->
  SFleb (SF64add a b) (SF64add a' b') = true.
Proof.
  intros Pa Pa' Pb Pb' Ha Hb.
  apply (SFleb_scaled 500 _ _ _ _ _ _ Pa Pa') in Ha; try lia.
  apply (SFleb_scaled 500 _ _ _ _ _ _ Pb Pb') in Hb; try lia.
  destruct (SF64add_rounds 500 a b Pa Pb ltac:(lia)) as (m & e & R & Hk & V).
  destruct (SF64add_rounds 500 a' b' Pa' Pb' ltac:(lia)) as (m' & e' & R' & Hk' & V').
  apply (rounds_to_monotone 500 _ _ _ _ _ _ R R'); try lia.
Qed.

(** ** The same on primitive doubles *)

Lemma between_normal (a b x : float) :
  normal_in a -> normal_in b ->
  PrimFloat.leb a x = true -> PrimFloat.leb x b = true -> normal_in x.
Proof.
  unfold normal_in. rewrite !leb_spec. intros Pa Pb Hax Hxb.
  apply (between_posnormal _ _ _ _ _ _ _ Pa Pb); try assumption; try lia.
  apply Prim2SF_valid.
Qed.

Lemma mul_monotone (x x' w : float) :
  normal_in x -> normal_in x' -> normal_in w ->
  PrimFloat.leb x x' = true -> PrimFloat.leb (x * w) (x' * w) = true.
Proof.
  unfold normal_in. rewrite !leb_spec, !mul_spec. apply SF64mul_monotone.
Qed.

Lemma add_monotone (a a' b b' : float) :
  normal_in a -> normal_in a' -> normal_in b -> normal_in b' ->
  PrimFloat.leb a a' = true -> PrimFloat.leb b b' = true ->
  PrimFloat.leb (a + b) (a' + b') = true.
Proof.
  unfold normal_in. rewrite !leb_spec, !add_spec. apply SF64add_monotone.
Qed.

Ltac normal_constant :=
  unfold normal_in; vm_compute;
  repeat split; try reflexivity; let H := fresh in intro H; discriminate H.

Lemma normal_in_bounds : normal_in MIN_BPM /\ normal_in MAX_BPM.
Proof. split; normal_constant. Qed.

Lemma bpm_in_range_normal (x : float) : bpm_in_range x -> normal_in x.
Proof.
  intros [Hlo Hhi].
  exact (between_normal _ _ _ (proj1 normal_in_bounds) (proj2 normal_in_bounds) Hlo Hhi).
Qed.

(** ** The tempo stays within the clamp bounds *)

(** A blend whose weights keep both bounds fixed keeps the range. *)
Lemma blend_in_range (w1 w2 c r : float) :
  normal_in w1 -> normal_in w2 ->
  normal_in (MIN_BPM * w1) -> normal_in (MAX_BPM * w1) ->
  normal_in (MIN_BPM * w2) -> normal_in (MAX_BPM * w2) ->
  (MIN_BPM * w1 + MIN_BPM * w2 = MIN_BPM)%float ->
  (MAX_BPM * w1 + MAX_BPM * w2 = MAX_BPM)%float ->
  bpm_in_range c -> bpm_in_range r ->
  bpm_in_range (c * w1 + r * w2).
Proof.
  intros Nw1 Nw2 Nl1 Nh1 Nl2 Nh2 Elo Ehi Hc Hr.
  pose proof (bpm_in_range_normal c Hc) as Nc.
  pose proof (bpm_in_range_normal r Hr) as Nr.
  destruct normal_in_bounds as [Nmin Nmax].
  destruct Hc as [Hc1 Hc2], Hr as [Hr1 Hr2].
  pose proof (mul_monotone _ _ w1 Nmin Nc Nw1 Hc1) as A1.
  pose proof (mul_monotone _ _ w1 Nc Nmax Nw1 Hc2) as A2.
  pose proof (mul_monotone _ _ w2 Nmin Nr Nw2 Hr1) as B1.
  pose proof (mul_monotone _ _ w2 Nr Nmax Nw2 Hr2) as B2.
  pose proof (between_normal _ _ _ Nl1 Nh1 A1 A2) as NA.
  pose proof (between_normal _ _ _ Nl2 Nh2 B1 B2) as NB.
  split.
  - rewrite <- Elo at 1. now apply add_monotone.
  - rewrite <- Ehi at 1. now apply add_monotone.
Qed.

Lemma smooth_in_range (mcount : Z) (c r : float) :
  bpm_in_range c -> bpm_in_range r -> bpm_in_range (smooth mcount c r).
Proof.
  intros Hc Hr. unfold smooth. rewrite smoothing_weight. unfold SMOOTHING_FACTOR.
  destruct (_ || _); [|destruct (_ || _)];
    apply blend_in_range; try assumption;
    try normal_constant; vm_compute; reflexivity.
Qed.

Lemma double_of_Z_in_range (n : Z) : 20 <= n <= 300 -> bpm_in_range (double_of_Z n).
Proof.
  intros Hn.
  assert (Hall : forallb (fun i => PrimFloat.leb MIN_BPM (double_of_Z (Z.of_nat i))
                                   && PrimFloat.leb (double_of_Z (Z.of_nat i)) MAX_BPM)
                   (seq 20 281) = true) by (vm_compute; reflexivity).
  rewrite forallb_forall in Hall.
  specialize (Hall (Z.to_nat n)). rewrite Z2Nat.id in Hall by lia.
  apply andb_true_iff. apply Hall. apply in_seq. lia.
Qed.

Lemma round_mag_bounds (m : positive) (e lo hi : Z) :
  e < 0 -> 0 <= e + 48 -> 0 <= lo ->
  lo * 2 ^ 48 <= scaled 48 (Z.pos m) e <= hi * 2 ^ 48 ->
  lo <= round_mag m e <= hi.
Proof.
  intros He He' Hlo [H1 H2]. unfold round_mag, scaled in *.
  destruct (Z.leb_spec 0 e); [lia|].
  set (d := 2 ^ (- e)).
  assert (Hd : 0 < d) by (apply Z.pow_pos_nonneg; lia).
  assert (Hsplit : 2 ^ 48 = 2 ^ (e + 48) * d).
  { unfold d. rewrite <- Z.pow_add_r by lia. f_equal. lia. }
  assert (HP : 0 < 2 ^ (e + 48)) by (apply Z.pow_pos_nonneg; lia).
  assert (Hm1 : lo * d <= Z.pos m).
  { apply Z.mul_le_mono_pos_r with (p := 2 ^ (e + 48)); [exact HP|].
    rewrite <- Z.mul_assoc, (Z.mul_comm d), <- Hsplit. exact H1. }
  assert (Hm2 : Z.pos m <= hi * d).
  { apply Z.mul_le_mono_pos_r with (p := 2 ^ (e + 48)); [exact HP|].
    rewrite <- (Z.mul_assoc hi), (Z.mul_comm d), <- Hsplit. exact H2. }
  pose proof (Z.div_mod (Z.pos m) d ltac:(lia)) as Hdm.
  pose proof (Z.mod_pos_bound (Z.pos m) d Hd) as Hr.
  assert (Hq1 : lo <= Z.pos m / d) by (apply Z.div_le_lower_bound; lia).
  assert (Hq2 : Z.pos m / d <= hi) by (apply Z.div_le_upper_bound; lia).
  destruct (Z.leb_spec d (2 * (Z.pos m mod d))) as [Hup|Hup]; [|lia].
  split; [lia|].
  destruct (Z.eq_dec (Z.pos m / d) hi) as [E|E]; [|lia].
  rewrite E in Hdm. nia.
Qed.

Lemma round_in_range (x : float) : bpm_in_range x -> bpm_in_range (round x).
Proof.
  intros [Hlo Hhi].
  assert (P20 : posnormal (-48) (-48) (Prim2SF MIN_BPM))
    by (vm_compute; repeat split; try reflexivity; intro H; discriminate H).
  assert (P300 : posnormal (-44) (-44) (Prim2SF MAX_BPM))
    by (vm_compute; repeat split; try reflexivity; intro H; discriminate H).
  rewrite leb_spec in Hlo, Hhi.
  pose proof (between_posnormal _ _ _ _ _ _ _ P20 P300 ltac:(lia)
                (Prim2SF_valid x) Hlo Hhi) as Px.
  apply (SFleb_scaled 48 _ _ _ _ _ _ P20 Px) in Hlo; try lia.
  apply (SFleb_scaled 48 _ _ _ _ _ _ Px P300) in Hhi; try lia.
  replace (SFscaled 48 (Prim2SF MIN_BPM)) with (20 * 2 ^ 48) in Hlo
    by (vm_compute; reflexivity).
  replace (SFscaled 48 (Prim2SF MAX_BPM)) with (300 * 2 ^ 48) in Hhi
    by (vm_compute; reflexivity).
  unfold round.
  destruct (Prim2SF x) as [| | |[] m e]; try contradiction.
  destruct Px as [_ He]. cbn [SFscaled] in Hlo, Hhi.
  destruct (Z.leb_spec 0 e); [lia|].
  apply double_of_Z_in_range.
  apply round_mag_bounds; try lia.
Qed.

Lemma snap_bpm_in_range (raw x : float) (s : BPMState) :
  bpm_in_range x -> bpm_in_range (fst (snap_bpm raw x s)).
Proof.
  intros Hx. unfold snap_bpm.
  destruct (PrimFloat.leb _ _); [|exact Hx].
  match goal with |- context [if ?b then _ else _] => destruct b end;
    match goal with |- context [if ?b then _ else _] => destruct b end;
    cbn [fst]; auto using round_in_range.
Qed.

Lemma take_measurement_in_range (e : Z) (g : Globals) :
  bpm_in_range (current_bpm (g_bpm_state g)) ->
  bpm_in_range (current_bpm (g_bpm_state (take_measurement e g))).
Proof.
  intros H. rewrite current_bpm_take_measurement.
  apply snap_bpm_in_range, smooth_in_range; [exact H|].
  apply clamp_bpm_bounds.
Qed.

Lemma calculate_and_set_bpm_in_range (now : Z) (g : Globals) :
  bpm_in_range (current_bpm (g_bpm_state g)) ->
  bpm_in_range (current_bpm (g_bpm_state (calculate_and_set_bpm now g))).
Proof.
  intros H. unfold calculate_and_set_bpm.
  destruct (negb _).
  - destruct (_ && _); exact H.
  - destruct (_ <=? _); [|exact H].
    destruct (0 <? _);
      match goal with |- context [if ?b then _ else _] => destruct b end;
      try exact H; apply (take_measurement_in_range _ _ H).
Qed.

Lemma perform_in_range (g : Globals) (a : action) :
  bpm_in_range (current_bpm (g_bpm_state g)) ->
  bpm_in_range (current_bpm (g_bpm_state (perform g a))).
Proof.
  intros H.
  destruct a as [[[]|] now|n|pos np| |r]; cbn [perform process_midi_clock];
    try exact H.
  - now apply calculate_and_set_bpm_in_range.
  - destruct (g_jack_client g); exact H.
  - destruct (g_jack_client g); exact H.
  - destruct (g_jack_client g); exact H.
  - unfold jack_process_callback. destruct (transport_rolling _); exact H.
  - unfold jack_timebase_callback. destruct (negb _); exact H.
  - unfold reset_transport. destruct (g_jack_client g); exact H.
  - unfold toggle_play_pause. destruct (g_jack_client g); [destruct r|]; exact H.
Qed.

Lemma feed_clocks_in_range (times : list Z) (g : Globals) :
  bpm_in_range (current_bpm (g_bpm_state g)) ->
  bpm_in_range (current_bpm (g_bpm_state (feed_clocks times g))).
Proof.
  unfold feed_clocks. revert g.
  induction times as [|t times IH]; intros g H; [exact H|].
  cbn [fold_left]. apply IH. now apply calculate_and_set_bpm_in_range.
Qed.

Lemma run_in_range (acts : list action) (g : Globals) :
  bpm_in_range (current_bpm (g_bpm_state g)) ->
  bpm_in_range (current_bpm (g_bpm_state (run acts g))).
Proof.
  unfold run. revert g.
  induction acts as [|a acts IH]; intros g H; [exact H|].
  cbn [fold_left]. apply IH. now apply perform_in_range.
Qed.

Lemma started_in_range (rate : Z) (resets : nat) :
  bpm_in_range (current_bpm (g_bpm_state (started rate resets))).
Proof.
  unfold started.
  assert (H : forall n, current_bpm (g_bpm_state (Nat.iter n reset_transport initial_globals))
                        = 120%float).
  { induction n as [|n IH]; [reflexivity|].
    rewrite Nat.iter_succ. revert IH.
    generalize (Nat.iter n reset_transport initial_globals). intros g' IH.
    unfold reset_transport. destruct (g_jack_client g'); exact IH. }
  unfold jack_client_opened. cbn [g_bpm_state current_bpm]. rewrite H.
  split; reflexivity.
Qed.

(** C8: from the initial tempo of 120 the stored tempo stays within
    [20, 300], whatever clock pulses arrive and whenever: after any run of
    pulses fed to the estimator, and in every state the running program
    reaches.  Each step keeps the range: the raw tempo is clamped; the blend
    of two doubles in the range, computed in binary64 with the rounded
    weights, is in the range; rounding to the nearest integer keeps it. *)
Theorem current_bpm_stays_in_range :
  (forall times : list Z,
      bpm_in_range (current_bpm (g_bpm_state (feed_clocks times initial_globals)))) /\
  (forall (times : list Z) (g : Globals),
      running g ->
      bpm_in_range (current_bpm (g_bpm_state (feed_clocks times g)))) /\
  (forall g : Globals, running g -> bpm_in_range (current_bpm (g_bpm_state g))) /\
  (forall raw : float, bpm_in_range (clamp_bpm raw)) /\
  (forall (mcount : Z) (c r : float),
      bpm_in_range c -> bpm_in_range r -> bpm_in_range (smooth mcount c r)) /\
  (forall (raw x : float) (s : BPMState),
      bpm_in_range x -> bpm_in_range (fst (snap_bpm raw x s))).
Proof.
  assert (Hrun : forall g, running g -> bpm_in_range (current_bpm (g_bpm_state g))).
  { intros g (rate & resets & acts & ->). apply run_in_range, started_in_range. }
  repeat split.
  - apply feed_clocks_in_range. split; reflexivity.
  - apply feed_clocks_in_range. split; reflexivity.
  - apply feed_clocks_in_range, Hrun. assumption.
  - apply feed_clocks_in_range, Hrun. assumption.
  - apply Hrun. assumption.
  - apply Hrun. assumption.
  - apply clamp_bpm_bounds.
  - apply clamp_bpm_bounds.
  - apply smooth_in_range; assumption.
  - apply smooth_in_range; assumption.
  - apply snap_bpm_in_range; assumption.
  - apply snap_bpm_in_range; assumption.
Qed.

Lemma current_bpm_stays_in_range_witness :
  bpm_in_range
    (current_bpm
       (g_bpm_state
          (feed_clocks (evenly_spaced 0 100 60)
             (run [MidiEvent (Some SND_SEQ_EVENT_START) 0] (started 48000 0))))).
Proof.
  destruct current_bpm_stays_in_range as (_ & H & _).
  apply H. exists 48000, 0%nat. eexists. reflexivity.
Defined.

(** ** Integers as doubles *)

Lemma binary_round_aux_normal (s : bool) (m : positive) (e : Z) :
  2 ^ 52 <= Z.pos m < 2 ^ 53 -> -1074 <= e < 971 ->
  binary_round_aux prec emax s (Z.pos m) e loc_Exact = S754_finite s m e.
Proof.
  intros Hm He.
  pose proof (digits2_pos_unique m 53 Hm) as Hd.
  rewrite binary_round_aux_exact by lia.
  rewrite Hd. change (53 - 53) with 0. rewrite rne_0.
  destruct (Z.ltb_spec (Z.pos m) (2 ^ 53)); [|lia].
  rewrite Pos2Z.id. f_equal. lia.
Qed.

(** A mantissa of at most 53 digits is normalised without rounding. *)
Lemma binary_round_short (s : bool) (m : positive) (e : Z) :
  Z.pos (digits2_pos m) <= 53 ->
  -1074 <= e + Z.pos (digits2_pos m) - 53 < 971 ->
  exists m' : positive,
    binary_round prec emax s m e = S754_finite s m' (e + Z.pos (digits2_pos m) - 53) /\
    Z.pos m' = Z.pos m * 2 ^ (53 - Z.pos (digits2_pos m)) /\
    2 ^ 52 <= Z.pos m' < 2 ^ 53.
Proof.
  intros Hd He. unfold binary_round.
  set (d := Z.pos (digits2_pos m)) in *.
  assert (Hf : fexp prec emax (d + e) = e + d - 53).
  { unfold fexp. change (SpecFloat.emin prec emax) with (-1074).
    change prec with 53. lia. }
  rewrite Hf.
  pose proof (shl_align_value m e (e + d - 53) ltac:(lia)) as Hv.
  replace (e - (e + d - 53)) with (53 - d) in Hv by lia.
  assert (He' : snd (shl_align m e (e + d - 53)) = e + d - 53).
  { unfold shl_align. destruct (e + d - 53 - e) eqn:E; cbn [snd]; lia. }
  destruct (shl_align m e (e + d - 53)) as [m' e']. cbn [fst snd] in Hv, He'.
  subst e'.
  assert (Hm' : 2 ^ 52 <= Z.pos m' < 2 ^ 53).
  { rewrite Hv.
    pose proof (digits2_pos_lower m) as Hl. pose proof (digits2_pos_bound m) as Hu.
    fold d in Hl, Hu.
    assert (HP : 0 < 2 ^ (53 - d)) by (apply Z.pow_pos_nonneg; lia).
    replace (2 ^ 52) with (2 ^ (d - 1) * 2 ^ (53 - d)).
    2:{ rewrite <- Z.pow_add_r by lia. f_equal. lia. }
    replace (2 ^ 53) with (2 ^ d * 2 ^ (53 - d)).
    2:{ rewrite <- Z.pow_add_r by lia. f_equal. lia. }
    split; [apply Z.mul_le_mono_nonneg_r; lia|apply Zmult_lt_compat_r; lia]. }
  exists m'. split; [|split; assumption].
  apply binary_round_aux_normal; [exact Hm'|lia].
Qed.

(** Integers below [2^53] convert exactly. *)
Lemma double_of_Z_exact (n : positive) :
  Z.pos n < 2 ^ 53 ->
  exists m' : positive,
    Prim2SF (double_of_Z (Z.pos n))
    = S754_finite false m' (Z.pos (digits2_pos n) - 53) /\
    Z.pos m' = Z.pos n * 2 ^ (53 - Z.pos (digits2_pos n)) /\
    2 ^ 52 <= Z.pos m' < 2 ^ 53.
Proof.
  intros Hn. unfold double_of_Z. cbn [Z.ltb Z.compare].
  rewrite of_uint63_spec, Uint63.of_Z_spec.
  assert (Hw : Z.pos n mod wB = Z.pos n).
  { apply Z.mod_small. split; [lia|].
    apply Z.lt_trans with (1 := Hn). reflexivity. }
  rewrite Hw. cbn [binary_normalize].
  pose proof (digits2_pos_le n 53 ltac:(lia) Hn) as Hd.
  destruct (binary_round_short false n 0 Hd) as (m' & E & V & B).
  - pose proof (Pos2Z.is_pos (digits2_pos n)). lia.
  - exists m'. rewrite E. repeat split; lia.
Qed.

Lemma double_of_Z_value (n : positive) :
  Z.pos n < 2 ^ 53 ->
  exists q : Q, value (double_of_Z (Z.pos n)) = Some q /\ (q == inject_Z (Z.pos n))%Q.
Proof.
  intros Hn. destruct (double_of_Z_exact n Hn) as (m' & E & V & B).
  unfold value. rewrite E. cbn [SF2Q]. unfold magnitude.
  pose proof (digits2_pos_le n 53 ltac:(lia) Hn) as Hd.
  destruct (Z.pos (digits2_pos n) - 53) as [|p|p] eqn:Ep; try lia.
  - eexists. split; [reflexivity|].
    rewrite V. replace (53 - Z.pos (digits2_pos n)) with 0 by lia.
    rewrite Z.pow_0_r, !Z.mul_1_r. reflexivity.
  - eexists. split; [reflexivity|].
    unfold Qeq. cbn [Qnum Qden inject_Z].
    rewrite V, Pos2Z.inj_pow. replace (53 - Z.pos (digits2_pos n)) with (Z.pos p) by lia.
    lia.
Qed.

(** ** Quotients of normal doubles are finite *)

Lemma shr_1_mantissa (mrs : shr_record) :
  0 <= shr_m mrs -> shr_m (shr_1 mrs) = shr_m mrs / 2.
Proof.
  destruct mrs as [m r s]. cbn [shr_m]. intros Hm.
  now rewrite shr_1_nonneg.
Qed.

Lemma shr_iter_mantissa (n : nat) (mrs : shr_record) :
  0 <= shr_m mrs ->
  shr_m (Nat.iter n shr_1 mrs) = shr_m mrs / 2 ^ Z.of_nat n.
Proof.
  intros Hm. induction n as [|n IH].
  - cbn [Nat.iter Z.of_nat]. now rewrite Z.pow_0_r, Z.div_1_r.
  - rewrite Nat.iter_succ, shr_1_mantissa, IH.
    + rewrite Z.div_div by (try apply Z.pow_pos_nonneg; lia).
      rewrite Nat2Z.inj_succ, Z.pow_succ_r by lia. f_equal. lia.
    + rewrite IH. apply Z.div_pos; [lia|apply Z.pow_pos_nonneg; lia].
Qed.

Lemma round_nearest_even_bounds (q : Z) (l : location) :
  q <= round_nearest_even q l <= q + 1.
Proof.
  destruct l as [|[]]; cbn [round_nearest_even]; try destruct (Z.even q); lia.
Qed.

Lemma shr_record_of_loc_mantissa (m : Z) (l : location) :
  shr_m (shr_record_of_loc m l) = m.
Proof. destruct l as [|[]]; reflexivity. Qed.

(** Rounding a positive mantissa of at least 53 digits, whatever lies
    below it, gives a positive normal double. *)
Lemma binary_round_aux_finite (m : positive) (e : Z) (l : location) :
  53 <= Z.pos (digits2_pos m) ->
  -1074 <= e ->
  e + (Z.pos (digits2_pos m) - 53) < 971 ->
  posnormal (e + (Z.pos (digits2_pos m) - 53))
    (e + (Z.pos (digits2_pos m) - 53) + 1)
    (binary_round_aux prec emax false (Z.pos m) e l).
Proof.
  intros Hd He Hmax. set (p := Z.pos (digits2_pos m) - 53) in *.
  assert (H52 : 0 < 2 ^ 52) by reflexivity.
  unfold binary_round_aux, shr_fexp at 1. cbn [Zdigits2].
  rewrite fexp_normal by assumption. fold p.
  assert (Hq : 2 ^ 52 <= Z.pos m / 2 ^ p < 2 ^ 53).
  { pose proof (digits2_pos_lower m) as Hl. pose proof (digits2_pos_bound m) as Hu.
    assert (HD : 0 < 2 ^ p) by (apply Z.pow_pos_nonneg; unfold p; lia).
    split.
    - apply Z.div_le_lower_bound; [lia|].
      rewrite <- Z.pow_add_r by (unfold p; lia).
      replace (p + 52) with (Z.pos (digits2_pos m) - 1) by (unfold p; lia). exact Hl.
    - apply Z.div_lt_upper_bound; [lia|].
      rewrite <- Z.pow_add_r by (unfold p; lia).
      replace (p + 53) with (Z.pos (digits2_pos m)) by (unfold p; lia). exact Hu. }
  assert (Hshr : exists mrs, shr (shr_record_of_loc (Z.pos m) l) e p = (mrs, e + p) /\
                             shr_m mrs = Z.pos m / 2 ^ p).
  { unfold shr. destruct p as [|pp|pp] eqn:Hp; try (unfold p in Hp; lia).
    - eexists. split; [f_equal; lia|].
      now rewrite shr_record_of_loc_mantissa, Z.pow_0_r, Z.div_1_r.
    - eexists. split; [reflexivity|].
      rewrite iter_pos_nat, shr_iter_mantissa, shr_record_of_loc_mantissa,
        positive_nat_Z; [reflexivity|].
      rewrite shr_record_of_loc_mantissa. lia. }
  destruct Hshr as (mrs & -> & Hm).
  pose proof (round_nearest_even_bounds (shr_m mrs) (loc_of_shr_record mrs)) as Hn.
  set (n := round_nearest_even (shr_m mrs) (loc_of_shr_record mrs)) in *.
  rewrite Hm in Hn.
  destruct (Z.ltb_spec n (2 ^ 53)) as [Hlt|Hge].
  - assert (Hpos : n = Z.pos (Z.to_pos n)) by (rewrite Z2Pos.id; lia).
    rewrite Hpos at 1. rewrite shr_fexp_normal by (rewrite <- ?Hpos; lia).
    cbn [shr_m]. change (emax - prec) with 971.
    destruct (Z.leb_spec (e + p) 971); [|lia].
    cbn [posnormal]. rewrite <- Hpos. lia.
  - assert (Hn53 : n = 2 ^ 53) by lia. rewrite Hn53.
    rewrite shr_fexp_carry by lia. cbn [shr_m].
    change (emax - prec) with 971.
    destruct (Z.leb_spec (e + p + 1) 971); [|lia].
    change (posnormal (e + p) (e + p + 1)
              (S754_finite false 4503599627370496 (e + p + 1))).
    cbn [posnormal]. split; [|lia].
    change (Z.pos 4503599627370496) with (2 ^ 52). lia.
Qed.

Lemma SF64div_posnormal (lx hx ly hy : Z) (x y : spec_float) :
  posnormal lx hx x -> posnormal ly hy y ->
  -1074 <= lx - hy - 53 -> hx - ly + 1 < 971 ->
  posnormal (lx - hy - 53) (hx - ly + 1) (SF64div x y).
Proof.
  destruct x as [| | |[] mx ex]; try contradiction.
  destruct y as [| | |[] my ey]; try contradiction.
  intros [Hmx Hex] [Hmy Hey] Hlo Hhi.
  unfold SF64div, SFdiv, SFdiv_core_binary. cbn [xorb Zdigits2].
  rewrite (digits2_pos_unique mx 53 Hmx), (digits2_pos_unique my 53 Hmy).
  replace (53 + ex - (53 + ey)) with (ex - ey) by lia.
  assert (Hf : Z.min (fexp prec emax (ex - ey)) (ex - ey) = ex - ey - 53).
  { unfold fexp. change (SpecFloat.emin prec emax) with (-1074).
    change prec with 53. lia. }
  rewrite Hf. replace (ex - ey - (ex - ey - 53)) with 53 by lia.
  rewrite Z.shiftl_mul_pow2 by lia.
  pose proof (Z.div_eucl_eq (Z.pos mx * 2 ^ 53) (Z.pos my) ltac:(lia)) as Heq.
  pose proof (Z.mod_pos_bound (Z.pos mx * 2 ^ 53) (Z.pos my) ltac:(lia)) as Hr.
  unfold Z.modulo in Hr.
  destruct (Z.div_eucl (Z.pos mx * 2 ^ 53) (Z.pos my)) as [q r].
  assert (Hq : 2 ^ 52 <= q < 2 ^ 54).
  { change (2 ^ 54) with (2 ^ 53 * 2) in *. change (2 ^ 53) with (2 ^ 52 * 2) in *.
    split; nia. }
  destruct q as [|q|q]; try lia.
  pose proof (digits2_pos_ge q 53 (proj1 Hq)) as Hd1.
  pose proof (digits2_pos_le q 54 ltac:(lia) (proj2 Hq)) as Hd2.
  pose proof (binary_round_aux_finite q (ex - ey - 53) (new_location (Z.pos my) r)
                Hd1 ltac:(lia) ltac:(lia)) as P.
  destruct (binary_round_aux _ _ _ _ _ _) as [| | |[] m e]; try contradiction.
  cbn [posnormal] in *. lia.
Qed.

(** ** Bar, beat and tick *)

Lemma magnitude_pos (m : positive) (e : Z) : (0 < magnitude m e)%Q.
Proof.
  assert (H : 0 < Z.pos m * 2 ^ e \/ e < 0).
  { destruct (Z.le_gt_cases 0 e); [left|right; lia].
    apply Z.mul_pos_pos; [lia|apply Z.pow_pos_nonneg; lia]. }
  unfold magnitude. destruct e; unfold Qlt; cbn [Qnum Qden inject_Z]; lia.
Qed.

Lemma trunc_mag_floor (m : positive) (e : Z) :
  trunc_mag m e = Qfloor (magnitude m e).
Proof.
  unfold trunc_mag, magnitude. destruct e as [|p|p].
  - now rewrite Qfloor_Z.
  - now rewrite Qfloor_Z.
  - cbn [Z.leb Z.compare Z.opp Qfloor]. now rewrite Pos2Z.inj_pow.
Qed.

(** On non-negative values below [2^31] the conversion to [int32_t] is the
    floor. *)
Lemma int32_of_double_floor (x : float) (q : Q) :
  value x = Some q -> (0 <= q)%Q -> (q < inject_Z 2147483648)%Q ->
  int32_of_double x = Qfloor q.
Proof.
  unfold value, int32_of_double. intros Hv H0 Hmax.
  assert (Hfl : 0 <= Qfloor q < 2147483648).
  { split.
    - change 0 with (Qfloor 0). now apply Qfloor_resp_le.
    - rewrite Zlt_Qlt. apply Qle_lt_trans with (2 := Hmax). apply Qfloor_le. }
  destruct (Prim2SF x) as [s|s| |s m e]; cbn [SF2Q] in Hv; try discriminate.
  - injection Hv as <-. reflexivity.
  - pose proof (magnitude_pos m e) as Hpos. rewrite trunc_mag_floor.
    revert Hv Hpos. generalize (magnitude m e). intros q' Hv Hpos.
    destruct s; injection Hv as <-.
    + exfalso. lra.
    + unfold INT32_MIN, INT32_MAX.
      change (- 2 ^ 31) with (-2147483648). change (2 ^ 31 - 1) with 2147483647.
      destruct (Z.leb_spec (-2147483648) (Qfloor q')); [|lia].
      destruct (Z.leb_spec (Qfloor q') 2147483647); [reflexivity|lia].
Qed.

Lemma timebase_callback_bbt (pos : jack_position_t) (g : Globals) :
  let be := beats_elapsed (current_bpm (g_bpm_state g)) (pos_frame pos)
              (sample_rate (g_bpm_state g)) in
  bbt (fst (jack_timebase_callback pos 0 g))
  = (wrap_int32 (int32_of_double (be / 4.0)%float + 1),
     wrap_int32 (int32_of_double (fmod be 4.0%float) + 1),
     int32_of_double (fmod (fmod be 4.0%float) 1.0%float * 1920.0)%float).
Proof. reflexivity. Qed.

Lemma timebase_callback_caches (pos : jack_position_t) (new_pos : Z) (g : Globals) :
  (bar (g_bpm_state (snd (jack_timebase_callback pos new_pos g))),
   beat (g_bpm_state (snd (jack_timebase_callback pos new_pos g))),
   tick (g_bpm_state (snd (jack_timebase_callback pos new_pos g))))
  = bbt (fst (jack_timebase_callback pos new_pos g)).
Proof.
  unfold jack_timebase_callback. destruct (negb (new_pos =? 0)); reflexivity.
Qed.

(** No beats have elapsed at frame 0. *)
Lemma beats_elapsed_zero (bpm : float) (rate : Z) :
  bpm_in_range bpm -> 0 < rate < 2 ^ 53 ->
  beats_elapsed bpm 0 rate = 0%float.
Proof.
  intros Hb Hr. unfold beats_elapsed.
  destruct rate as [|n|n]; try lia.
  destruct (double_of_Z_exact n (proj2 Hr)) as (m' & E & _ & _).
  assert (H0 : (double_of_Z 0 / double_of_Z (Z.pos n) = 0)%float).
  { apply Prim2SF_inj. rewrite div_spec, E. reflexivity. }
  rewrite H0.
  assert (P60 : posnormal (-47) (-47) (Prim2SF 60.0%float))
    by (vm_compute; repeat split; try reflexivity; intro H; discriminate H).
  pose proof (bpm_in_range_normal bpm Hb) as Pb. unfold normal_in in Pb.
  pose proof (SF64div_posnormal _ _ _ _ _ _ Pb P60 ltac:(lia) ltac:(lia)) as Pq.
  apply Prim2SF_inj. rewrite mul_spec, div_spec.
  destruct (SF64div (Prim2SF bpm) (Prim2SF 60%float)) as [| | |[] m e];
    try contradiction.
  reflexivity.
Qed.

(** C5: the position query computes
    [beats_elapsed = (bpm / 60) * (frame / sample_rate)] in doubles and
    from it bar = floor (beats_elapsed / 4) + 1,
    beat = floor (fmod (beats_elapsed, 4)) + 1 and
    tick = floor (fmod (fmod (beats_elapsed, 4), 1) * 1920); the conversions
    to [int32_t] are floors wherever C++ defines them with a non-negative
    operand, that is below [2^31].  At 120 bpm and 48000 Hz frame 24000 is
    bar 1, beat 2, tick 0, and frame 0 is bar 1, beat 1, tick 0 for every
    tempo within the clamp bounds and every 32-bit sample rate above 0.  The
    answer is also what the query caches in the shared state. *)
Theorem bbt_from_frame :
  (forall (pos : jack_position_t) (g : Globals),
      let be := beats_elapsed (current_bpm (g_bpm_state g)) (pos_frame pos)
                  (sample_rate (g_bpm_state g)) in
      let pos' := fst (jack_timebase_callback pos 0 g) in
      (forall q : Q,
          value (be / 4.0)%float = Some q ->
          (0 <= q)%Q -> (q < inject_Z 2147483647)%Q ->
          pos_bar pos' = Qfloor q + 1) /\
      (forall q : Q,
          value (fmod be 4.0%float) = Some q ->
          (0 <= q)%Q -> (q < inject_Z 2147483647)%Q ->
          pos_beat pos' = Qfloor q + 1) /\
      (forall q : Q,
          value (fmod (fmod be 4.0%float) 1.0%float * 1920.0)%float = Some q ->
          (0 <= q)%Q -> (q < inject_Z 2147483648)%Q ->
          pos_tick pos' = Qfloor q)) /\
  (forall (pos : jack_position_t) (g : Globals),
      current_bpm (g_bpm_state g) = 120.0%float ->
      sample_rate (g_bpm_state g) = 48000 ->
      pos_frame pos = 24000 ->
      bbt (fst (jack_timebase_callback pos 0 g)) = (1, 2, 0)) /\
  (forall (pos : jack_position_t) (g : Globals),
      bpm_in_range (current_bpm (g_bpm_state g)) ->
      0 < sample_rate (g_bpm_state g) < 2 ^ 32 ->
      pos_frame pos = 0 ->
      bbt (fst (jack_timebase_callback pos 0 g)) = (1, 1, 0)) /\
  (forall (pos : jack_position_t) (new_pos : Z) (g : Globals),
      (bar (g_bpm_state (snd (jack_timebase_callback pos new_pos g))),
       beat (g_bpm_state (snd (jack_timebase_callback pos new_pos g))),
       tick (g_bpm_state (snd (jack_timebase_callback pos new_pos g))))
      = bbt (fst (jack_timebase_callback pos new_pos g))).
Proof.
  split; [|split; [|split]].
  - intros pos g be pos'.
    assert (Hbar : pos_bar pos' = wrap_int32 (int32_of_double (be / 4.0)%float + 1))
      by reflexivity.
    assert (Hbeat : pos_beat pos' = wrap_int32 (int32_of_double (fmod be 4.0%float) + 1))
      by reflexivity.
    assert (Htick : pos_tick pos'
                    = int32_of_double (fmod (fmod be 4.0%float) 1.0%float * 1920.0)%float)
      by reflexivity.
    assert (Hfl : forall q, (0 <= q)%Q -> (q < inject_Z 2147483647)%Q ->
                            wrap_int32 (Qfloor q + 1) = Qfloor q + 1).
    { intros q H0 Hmax. apply wrap_int32_small.
      assert (0 <= Qfloor q) by (change 0 with (Qfloor 0); now apply Qfloor_resp_le).
      assert (Qfloor q < 2147483647).
      { rewrite Zlt_Qlt. apply Qle_lt_trans with (2 := Hmax). apply Qfloor_le. }
      lia. }
    split; [|split]; intros q Hv H0 Hmax.
    + rewrite Hbar, (int32_of_double_floor _ q Hv H0); [now apply Hfl|].
      apply Qlt_trans with (1 := Hmax). reflexivity.
    + rewrite Hbeat, (int32_of_double_floor _ q Hv H0); [now apply Hfl|].
      apply Qlt_trans with (1 := Hmax). reflexivity.
    + rewrite Htick. now apply int32_of_double_floor.
  - intros pos g Hb Hr Hf. rewrite timebase_callback_bbt, Hb, Hr, Hf.
    vm_compute. reflexivity.
  - intros pos g Hb Hr Hf. rewrite timebase_callback_bbt, Hf.
    rewrite beats_elapsed_zero; [vm_compute; reflexivity|exact Hb|].
    split; [lia|]. apply Z.lt_trans with (1 := proj2 Hr). reflexivity.
  - apply timebase_callback_caches.
Qed.

Lemma bbt_from_frame_witness :
  let g := run [MidiEvent (Some SND_SEQ_EVENT_START) 0] (started 48000 0) in
  pos_bar (fst (jack_timebase_callback (blank_position 1234567) 0 g))
  = Qfloor (magnitude 7239577449432176 (-49)) + 1 /\
  pos_beat (fst (jack_timebase_callback (blank_position 1234567) 0 g))
  = Qfloor (magnitude 7746848134022912 (-51)) + 1 /\
  bbt (fst (jack_timebase_callback (blank_position 24000) 0 g)) = (1, 2, 0) /\
  bbt (fst (jack_timebase_callback (blank_position 0) 0 g)) = (1, 1, 0).
Proof.
  intros g. destruct bbt_from_frame as (HA & HB & HC & _).
  destruct (HA (blank_position 1234567) g) as (Hbar & Hbeat & _).
  split; [|split; [|split]].
  - apply Hbar; [vm_compute; reflexivity|vm_compute; discriminate|vm_compute; reflexivity].
  - apply Hbeat; [vm_compute; reflexivity|vm_compute; discriminate|vm_compute; reflexivity].
  - apply HB; reflexivity.
  - apply HC; [split; reflexivity|split; reflexivity|reflexivity].
Defined.

(** ** The pulse counter *)

Lemma started_pulse_count (rate : Z) (resets : nat) :
  pulse_count (g_bpm_state (started rate resets)) = 0.
Proof.
  unfold started, jack_client_opened. cbn [g_bpm_state pulse_count].
  destruct resets as [|n]; [reflexivity|].
  rewrite Nat.iter_succ. reflexivity.
Qed.

Lemma perform_pulse_count (g : Globals) (a : action) :
  0 <= pulse_count (g_bpm_state g) <= 23 ->
  0 <= pulse_count (g_bpm_state (perform g a)) <= 23.
Proof.
  intros H.
  destruct a as [[[]|] now|n|pos np| |r]; cbn [perform process_midi_clock];
    try exact H; try (cbn; lia).
  - unfold calculate_and_set_bpm. destruct (negb _).
    + destruct (_ && _); cbn; lia.
    + rewrite wrap_int32_small by lia. unfold PULSES_PER_QUARTER.
      destruct (Z.leb_spec 24 (pulse_count (g_bpm_state g) + 1)).
      * match goal with |- context [if ?b then _ else _] => destruct b end; cbn; lia.
      * cbn. lia.
  - destruct (g_jack_client g); exact H.
  - unfold jack_process_callback. destruct (transport_rolling _); exact H.
  - unfold jack_timebase_callback. destruct (negb _); exact H.
  - unfold toggle_play_pause. destruct (g_jack_client g); [destruct r|]; exact H.
Qed.

(** X1: the pulse counter stays between 0 and 23 in every state the running
    program reaches: the 24th counted pulse closes the window and puts it
    back to 0. *)
Theorem pulse_count_in_window (g : Globals) :
  running g -> 0 <= pulse_count (g_bpm_state g) <= 23.
Proof.
  intros (rate & resets & acts & ->).
  assert (H : 0 <= pulse_count (g_bpm_state (started rate resets)) <= 23)
    by (rewrite started_pulse_count; lia).
  revert H. generalize (started rate resets). unfold run.
  induction acts as [|a acts IH]; intros g H; cbn [fold_left]; [exact H|].
  apply IH. now apply perform_pulse_count.
Qed.

Lemma pulse_count_in_window_witness :
  0 <= pulse_count
         (g_bpm_state
            (feed_clocks (evenly_spaced 0 20833 60) (started 48000 0))) <= 23.
Proof.
  apply pulse_count_in_window.
  exists 48000, 0%nat, (map (fun t => MidiEvent (Some SND_SEQ_EVENT_CLOCK) t)
                          (evenly_spaced 0 20833 60)).
  vm_compute. reflexivity.
Defined.

(** ** Stop, Continue and the first clock *)

(** X2: a second Stop changes nothing in the shared state: the transport is
    stopped (when a client is open), the pulse counter is 0 and the next
    clock opens a fresh window, exactly as after the first. *)
Theorem stop_is_idempotent (now1 now2 : Z) (g : Globals) :
  let g1 := process_midi_clock (Some SND_SEQ_EVENT_STOP) now1 g in
  let g2 := process_midi_clock (Some SND_SEQ_EVENT_STOP) now2 g1 in
  g_bpm_state g2 = g_bpm_state g1 /\
  pulse_count (g_bpm_state g1) = 0 /\
  first_clock_received (g_bpm_state g1) = false /\
  transport_rolling (g_bpm_state g1)
  = (negb (g_jack_client g) && transport_rolling (g_bpm_state g)).
Proof.
  destruct g as [[] [bpm pc lpt rolling fcr lsb sc mc b bt tk cf tst sr luj] l];
    cbn; repeat split.
Qed.

Lemma advance_all_rolling (blocks : list Z) (g : Globals) :
  transport_rolling (g_bpm_state (advance_all blocks g))
  = transport_rolling (g_bpm_state g).
Proof.
  destruct (advance_all_cases blocks g) as [-> | [f ->]]; reflexivity.
Qed.

Lemma advance_all_accumulates_from (blocks : list Z) (g : Globals) :
  transport_rolling (g_bpm_state g) = true ->
  0 <= current_frame (g_bpm_state g) < 2 ^ 32 ->
  current_frame (g_bpm_state (advance_all blocks g))
  = wrap_uint32 (current_frame (g_bpm_state g) + total_frames blocks).
Proof.
  unfold advance_all, wrap_uint32. revert g.
  induction blocks as [|n blocks IH]; intros g Hroll Hf; cbn [fold_left total_frames fold_right].
  - rewrite Z.add_0_r, Z.mod_small; [reflexivity|exact Hf].
  - unfold jack_process_callback at 2. rewrite Hroll.
    rewrite IH.
    + cbn [upd g_bpm_state set_current_frame current_frame]. unfold wrap_uint32.
      rewrite Zplus_mod_idemp_l. f_equal. fold (total_frames blocks). lia.
    + destruct g as [c [] l]. exact Hroll.
    + cbn [upd g_bpm_state set_current_frame current_frame]. unfold wrap_uint32.
      apply Z.mod_pos_bound. reflexivity.
Qed.

(** X3: while the transport rolls the frame counter is the sum of the block
    sizes added to where it stood, modulo [2^32]: the counter is a 32-bit
    [jack_nframes_t] and wraps around. *)
Theorem frame_counter_accumulates (blocks : list Z) (g : Globals) :
  transport_rolling (g_bpm_state g) = true ->
  0 <= current_frame (g_bpm_state g) < 2 ^ 32 ->
  current_frame (g_bpm_state (advance_all blocks g))
  = (current_frame (g_bpm_state g) + total_frames blocks) mod 2 ^ 32.
Proof. apply advance_all_accumulates_from. Qed.

Lemma frame_counter_accumulates_witness :
  let g := run [MidiEvent (Some SND_SEQ_EVENT_START) 0;
                TimebaseQuery (blank_position 4294967000) 0] (started 48000 0) in
  current_frame (g_bpm_state (advance_all [256; 256] g)) = 216.
Proof.
  intros g. rewrite frame_counter_accumulates.
  - reflexivity.
  - reflexivity.
  - split; [discriminate|reflexivity].
Defined.

(** X4: Continue resumes in place.  Stop, any audio blocks and Continue
    leave the position where it was when Stop arrived and the tempo and
    measurement count as they were; the transport rolls again and the next
    block advances from that frame. *)
Theorem continue_resumes_in_place (g : Globals) (now1 now2 n : Z)
    (blocks : list Z) :
  g_jack_client g = true ->
  let g1 := process_midi_clock (Some SND_SEQ_EVENT_STOP) now1 g in
  let g2 := advance_all blocks g1 in
  let g3 := process_midi_clock (Some SND_SEQ_EVENT_CONTINUE) now2 g2 in
  position g3 = position g /\
  transport_rolling (g_bpm_state g3) = true /\
  current_bpm (g_bpm_state g3) = current_bpm (g_bpm_state g) /\
  measurement_count (g_bpm_state g3) = measurement_count (g_bpm_state g) /\
  current_frame (g_bpm_state (jack_process_callback n g3))
  = wrap_uint32 (current_frame (g_bpm_state g) + n).
Proof.
  intros Hc g1 g2 g3.
  assert (H1 : g1 = upd (set_first_clock_received false)
                      (upd (set_pulse_count 0)
                         (upd (set_transport_rolling false) (emit JackTransportStop g)))).
  { unfold g1. cbn [process_midi_clock]. now rewrite Hc. }
  assert (H2 : g2 = g1).
  { apply advance_all_stopped. rewrite H1. reflexivity. }
  assert (H3 : g3 = upd (set_transport_rolling true) (emit JackTransportStart g1)).
  { unfold g3. rewrite H2. cbn [process_midi_clock].
    replace (g_jack_client g1) with true; [reflexivity|].
    rewrite H1. symmetry. exact Hc. }
  rewrite H3, H1. unfold jack_process_callback.
  destruct g as [c [] l]. repeat split.
Qed.

Lemma continue_resumes_in_place_witness :
  let g := run [MidiEvent (Some SND_SEQ_EVENT_START) 0; ProcessBlock 10000]
             (started 48000 0) in
  position
    (process_midi_clock (Some SND_SEQ_EVENT_CONTINUE) 9
       (advance_all [512; 512] (process_midi_clock (Some SND_SEQ_EVENT_STOP) 5 g)))
  = position g.
Proof.
  intros g.
  destruct (continue_resumes_in_place g 5 9 64 [512; 512]) as [H _].
  - reflexivity.
  - exact H.
Defined.



(** ** The position query *)

(** X6: asking the same query again changes nothing: the answer and the
    state after the second call are those of the first. *)
Theorem timebase_query_is_idempotent (pos : jack_position_t) (new_pos : Z)
    (g : Globals) :
  jack_timebase_callback pos new_pos
    (snd (jack_timebase_callback pos new_pos g))
  = jack_timebase_callback pos new_pos g.
Proof.
  unfold jack_timebase_callback.
  destruct (negb (new_pos =? 0)); destruct g as [c [] l]; reflexivity.
Qed.

(** ** Who writes what *)

Lemma snap_bpm_untouched (raw x : float) (s : BPMState) :
  let s' := snd (snap_bpm raw x s) in
  (current_frame s', bar s', beat s', tick s', sample_rate s',
   transport_rolling s')
  = (current_frame s, bar s, beat s, tick s, sample_rate s, transport_rolling s).
Proof.
  unfold snap_bpm. destruct (PrimFloat.leb _ _); [|reflexivity].
  destruct (PrimFloat.ltb _ _); cbn [stability_counter set_stability_counter
                                      set_last_snapped_bpm];
    destruct (_ <=? _); reflexivity.
Qed.

Lemma take_measurement_position (e : Z) (g : Globals) :
  position (take_measurement e g) = position g /\
  sample_rate (g_bpm_state (take_measurement e g)) = sample_rate (g_bpm_state g) /\
  transport_rolling (g_bpm_state (take_measurement e g))
  = transport_rolling (g_bpm_state g).
Proof.
  unfold take_measurement.
  pose proof (snap_bpm_untouched (raw_bpm_of e)
                (smooth (measurement_count (g_bpm_state g))
                   (current_bpm (g_bpm_state g)) (raw_bpm_of e))
                (g_bpm_state g)) as H.
  destruct (snap_bpm _ _ _) as [final s]. cbn [snd] in H.
  injection H as H1 H2 H3 H4 H5 H6.
  unfold update_jack_transport_bpm, position.
  cbn [upd g_jack_client g_bpm_state].
  destruct (g_jack_client g); cbn [negb];
    [destruct (PrimFloat.ltb _ _)|]; cbn; rewrite H1, H2, H3, H4, H5, H6;
    repeat split.
Qed.

Lemma calculate_and_set_bpm_position (now : Z) (g : Globals) :
  position (calculate_and_set_bpm now g) = position g /\
  sample_rate (g_bpm_state (calculate_and_set_bpm now g))
  = sample_rate (g_bpm_state g).
Proof.
  unfold calculate_and_set_bpm.
  destruct (negb _).
  - destruct (_ && _); destruct g as [c [] l]; split; reflexivity.
  - destruct (_ <=? _); [|destruct g as [c [] l]; split; reflexivity].
    destruct (take_measurement_position
                (elapsed_microseconds now (last_pulse_time (g_bpm_state g))) g)
      as (Hp & Hs & _).
    destruct (0 <? _).
    + revert Hp Hs. generalize (take_measurement
                 (elapsed_microseconds now (last_pulse_time (g_bpm_state g))) g).
      intros g' Hp Hs. rewrite <- Hp, <- Hs.
      match goal with |- context [if ?b then _ else _] => destruct b end;
        destruct g' as [c' [] l']; split; reflexivity.
    + match goal with |- context [if ?b then _ else _] => destruct b end;
        destruct g as [c [] l]; split; reflexivity.
Qed.

(** X7: the estimator never moves the position: a run of clock pulses,
    whatever their timestamps, leaves frame, bar, beat, tick and the sample
    rate as they are. *)
Theorem clock_pulses_keep_position (times : list Z) (g : Globals) :
  position (feed_clocks times g) = position g /\
  sample_rate (g_bpm_state (feed_clocks times g)) = sample_rate (g_bpm_state g).
Proof.
  unfold feed_clocks. revert g.
  induction times as [|t times IH]; intros g; cbn [fold_left]; [split; reflexivity|].
  destruct (IH (calculate_and_set_bpm t g)) as [-> ->].
  apply calculate_and_set_bpm_position.
Qed.

(** X8: the two real-time callbacks never touch the estimator: tempo,
    pulse and measurement counters, snap bookkeeping, the rolling flag and
    the log of requests are as before an audio block or a position query. *)
Theorem callbacks_keep_estimator (g : Globals) (a : action) :
  is_callback a = true ->
  estimator_view (g_bpm_state (perform g a)) = estimator_view (g_bpm_state g) /\
  transport_rolling (g_bpm_state (perform g a)) = transport_rolling (g_bpm_state g) /\
  g_effects (perform g a) = g_effects g /\
  g_jack_client (perform g a) = g_jack_client g.
Proof.
  destruct a as [ev now|n|pos np| |r]; try discriminate; intros _; cbn [perform].
  - destruct (process_callback_cases n g) as [-> | [f ->]]; repeat split.
  - unfold jack_timebase_callback. destruct (negb _); repeat split.
Qed.

Lemma callbacks_keep_estimator_witness :
  let g := feed_clocks (evenly_spaced 0 20833 30) (started 48000 0) in
  estimator_view (g_bpm_state (perform g (TimebaseQuery (blank_position 777) 0)))
  = estimator_view (g_bpm_state g).
Proof.
  intros g. apply callbacks_keep_estimator. reflexivity.
Defined.

(** ** What a measurement leaves behind *)

Lemma snap_bpm_estimator_fields (raw x : float) (s : BPMState) :
  let s' := snd (snap_bpm raw x s) in
  (pulse_count s', last_pulse_time s', first_clock_received s',
   measurement_count s', last_updated_jack_bpm s', current_bpm s')
  = (pulse_count s, last_pulse_time s, first_clock_received s,
     measurement_count s, last_updated_jack_bpm s, current_bpm s).
Proof.
  unfold snap_bpm. destruct (PrimFloat.leb _ _); [|reflexivity].
  destruct (PrimFloat.ltb _ _); cbn [stability_counter set_stability_counter
                                      set_last_snapped_bpm];
    destruct (_ <=? _); reflexivity.
Qed.

Lemma take_measurement_fields (e : Z) (g : Globals) :
  let g' := take_measurement e g in
  measurement_count (g_bpm_state g')
  = wrap_int32 (measurement_count (g_bpm_state g) + 1) /\
  pulse_count (g_bpm_state g') = pulse_count (g_bpm_state g) /\
  last_pulse_time (g_bpm_state g') = last_pulse_time (g_bpm_state g) /\
  first_clock_received (g_bpm_state g') = first_clock_received (g_bpm_state g) /\
  last_report (g_effects g') = Some (current_bpm (g_bpm_state g'), raw_bpm_of e) /\
  jack_requests (g_effects g')
  = (if g_jack_client g then [JackTransportRelocateCurrent] else [])
      ++ jack_requests (g_effects g) /\
  g_jack_client g' = g_jack_client g.
Proof.
  unfold take_measurement.
  pose proof (snap_bpm_estimator_fields (raw_bpm_of e)
                (smooth (measurement_count (g_bpm_state g))
                   (current_bpm (g_bpm_state g)) (raw_bpm_of e))
                (g_bpm_state g)) as H.
  destruct (snap_bpm _ _ _) as [final s]. cbn [snd] in H.
  injection H as H1 H2 H3 H4 H5 H6.
  unfold update_jack_transport_bpm.
  cbn [upd g_jack_client g_bpm_state].
  destruct (g_jack_client g) eqn:Hc; cbn [negb];
    [destruct (PrimFloat.ltb _ _)|]; cbn; rewrite ?H1, ?H2, ?H3, ?H4;
    repeat split; exact Hc.
Qed.

Lemma measurement_fields_at_close (now : Z) (g : Globals) :
  first_clock_received (g_bpm_state g) = true ->
  PULSES_PER_QUARTER <= wrap_int32 (pulse_count (g_bpm_state g) + 1) ->
  0 < elapsed_microseconds now (last_pulse_time (g_bpm_state g)) ->
  let g' := calculate_and_set_bpm now g in
  measurement_count (g_bpm_state g')
  = wrap_int32 (measurement_count (g_bpm_state g) + 1) /\
  pulse_count (g_bpm_state g') = 0 /\
  last_pulse_time (g_bpm_state g') = now /\
  first_clock_received (g_bpm_state g') = true.
Proof.
  intros Hfirst Hcount Hel. unfold calculate_and_set_bpm.
  rewrite Hfirst. cbn [negb].
  destruct (Z.leb_spec PULSES_PER_QUARTER (wrap_int32 (pulse_count (g_bpm_state g) + 1)));
    [|lia].
  destruct (Z.ltb_spec 0 (elapsed_microseconds now (last_pulse_time (g_bpm_state g))));
    [|lia].
  destruct (take_measurement_fields
              (elapsed_microseconds now (last_pulse_time (g_bpm_state g))) g)
    as (Hm & _ & _ & Hf & _).
  revert Hm Hf.
  generalize (take_measurement
                (elapsed_microseconds now (last_pulse_time (g_bpm_state g))) g).
  intros g' Hm Hf. rewrite <- Hm, Hfirst in *.
  match goal with |- context [if ?b then _ else _] => destruct b end;
    destruct g' as [c' [] l']; cbn in *; repeat split; assumption.
Qed.

(** X9: a sample that is not discarded is published.  On the pulse that
    closes a window with a positive elapsed time the measurement count goes
    up by one, the report carries the tempo that is stored and the clamped
    raw tempo, the next window starts at this pulse, and with a client open
    JACK is asked once to re-evaluate the position. *)
Theorem measurement_is_published (now : Z) (g : Globals) :
  first_clock_received (g_bpm_state g) = true ->
  PULSES_PER_QUARTER <= wrap_int32 (pulse_count (g_bpm_state g) + 1) ->
  0 < elapsed_microseconds now (last_pulse_time (g_bpm_state g)) ->
  let g' := calculate_and_set_bpm now g in
  measurement_count (g_bpm_state g')
  = wrap_int32 (measurement_count (g_bpm_state g) + 1) /\
  last_report (g_effects g')
  = Some (current_bpm (g_bpm_state g'),
          raw_bpm_of (elapsed_microseconds now (last_pulse_time (g_bpm_state g)))) /\
  pulse_count (g_bpm_state g') = 0 /\
  last_pulse_time (g_bpm_state g') = now /\
  first_clock_received (g_bpm_state g') = true /\
  jack_requests (g_effects g')
  = (if g_jack_client g then [JackTransportRelocateCurrent] else [])
      ++ jack_requests (g_effects g).
Proof.
  intros Hfirst Hcount Hel. unfold calculate_and_set_bpm.
  rewrite Hfirst. cbn [negb].
  destruct (Z.leb_spec PULSES_PER_QUARTER (wrap_int32 (pulse_count (g_bpm_state g) + 1)));
    [|lia].
  destruct (Z.ltb_spec 0 (elapsed_microseconds now (last_pulse_time (g_bpm_state g))));
    [|lia].
  destruct (take_measurement_fields
              (elapsed_microseconds now (last_pulse_time (g_bpm_state g))) g)
    as (Hm & _ & _ & Hf & Hr & Hj & _).
  revert Hm Hf Hr Hj.
  generalize (take_measurement
                (elapsed_microseconds now (last_pulse_time (g_bpm_state g))) g).
  intros g' Hm Hf Hr Hj. rewrite <- Hm, <- Hj, Hfirst in *.
  match goal with |- context [if ?b then _ else _] => destruct b end;
    destruct g' as [c' [] l']; cbn in *; repeat split; assumption.
Qed.

Lemma measurement_is_published_witness :
  let g := feed_clocks (evenly_spaced 0 20000 24) (started 48000 0) in
  measurement_count (g_bpm_state (calculate_and_set_bpm 480000000 g)) = 1 /\
  last_report (g_effects (calculate_and_set_bpm 480000000 g))
  = Some (current_bpm (g_bpm_state (calculate_and_set_bpm 480000000 g)), 125%float).
Proof.
  intros g.
  destruct (measurement_is_published 480000000 g) as (H1 & H2 & _).
  - reflexivity.
  - vm_compute. discriminate.
  - vm_compute. reflexivity.
  - split; [rewrite H1; reflexivity|rewrite H2; reflexivity].
Defined.

(** ** A steady clock *)

Lemma evenly_spaced_app (t0 T : Z) (a b : nat) :
  evenly_spaced t0 T (a + b)
  = evenly_spaced t0 T a ++ evenly_spaced (t0 + Z.of_nat a * (1000 * T)) T b.
Proof.
  revert t0. induction a as [|a IH]; intros t0.
  - cbn [Nat.add evenly_spaced app Z.of_nat]. f_equal. lia.
  - change (S a + b)%nat with (S (a + b)).
    rewrite !evenly_spaced_S, IH, <- app_comm_cons, Nat2Z.inj_succ.
    do 3 f_equal. lia.
Qed.

(** One full window: 23 counted pulses and the pulse that closes it. *)
Lemma full_window (t T : Z) (g : Globals) :
  first_clock_received (g_bpm_state g) = true ->
  pulse_count (g_bpm_state g) = 0 ->
  last_pulse_time (g_bpm_state g) = t ->
  0 < T ->
  let g' := feed_clocks (evenly_spaced (t + 1000 * T) T 24) g in
  first_clock_received (g_bpm_state g') = true /\
  pulse_count (g_bpm_state g') = 0 /\
  last_pulse_time (g_bpm_state g') = t + 24 * (1000 * T) /\
  raw_samples (g_effects g') = raw_bpm_of (24 * T) :: raw_samples (g_effects g) /\
  measurement_count (g_bpm_state g')
  = wrap_int32 (measurement_count (g_bpm_state g) + 1).
Proof.
  intros Hfirst Hcount Hlast HT g'.
  assert (Hg' : g' = calculate_and_set_bpm (t + 24 * (1000 * T))
                       (upd (set_pulse_count 23) g)).
  { unfold g'. rewrite (evenly_spaced_snoc _ T 23), feed_clocks_app.
    rewrite (window_counts_23 _ T g Hfirst Hcount).
    cbn [feed_clocks fold_left]. f_equal. lia. }
  assert (Hel : elapsed_microseconds (t + 24 * (1000 * T))
                  (last_pulse_time (g_bpm_state (upd (set_pulse_count 23) g)))
                = 24 * T).
  { change (last_pulse_time (g_bpm_state (upd (set_pulse_count 23) g)))
      with (last_pulse_time (g_bpm_state g)).
    rewrite Hlast. unfold elapsed_microseconds.
    replace (t + 24 * (1000 * T) - t) with (24 * T * 1000) by lia.
    apply Z.quot_mul. lia. }
  assert (Hcl := closing_pulse (t + 24 * (1000 * T)) (upd (set_pulse_count 23) g)
                   Hfirst eq_refl).
  rewrite Hel in Hcl. specialize (Hcl ltac:(lia)).
  destruct (measurement_fields_at_close (t + 24 * (1000 * T))
              (upd (set_pulse_count 23) g) Hfirst)
    as (Hm & Hp & Hl & Hf).
  - change (pulse_count (g_bpm_state (upd (set_pulse_count 23) g))) with 23.
    rewrite wrap_int32_small by lia. unfold PULSES_PER_QUARTER. lia.
  - rewrite Hel. lia.
  - rewrite Hg'. repeat split; assumption.
Qed.

Lemma windows_in_a_row (T : Z) (n : nat) :
  0 < T ->
  forall (t : Z) (g : Globals),
    first_clock_received (g_bpm_state g) = true ->
    pulse_count (g_bpm_state g) = 0 ->
    last_pulse_time (g_bpm_state g) = t ->
    -2147483648 <= measurement_count (g_bpm_state g) ->
    measurement_count (g_bpm_state g) + Z.of_nat n < 2147483648 ->
    let g' := feed_clocks (evenly_spaced (t + 1000 * T) T (24 * n)) g in
    raw_samples (g_effects g')
    = repeat (raw_bpm_of (24 * T)) n ++ raw_samples (g_effects g) /\
    measurement_count (g_bpm_state g')
    = measurement_count (g_bpm_state g) + Z.of_nat n /\
    pulse_count (g_bpm_state g') = 0.
Proof.
  intros HT. induction n as [|n IH]; intros t g Hfirst Hcount Hlast Hlo Hhi g'.
  - unfold g'. rewrite Nat.mul_0_r.
    cbn [evenly_spaced feed_clocks fold_left repeat app Z.of_nat].
    repeat split; try lia; assumption.
  - assert (Hsplit : (24 * S n = 24 + 24 * n)%nat) by lia.
    unfold g'. rewrite Hsplit, evenly_spaced_app, feed_clocks_app.
    destruct (full_window t T g Hfirst Hcount Hlast HT) as (Hf1 & Hc1 & Hl1 & Hr1 & Hm1).
    revert Hf1 Hc1 Hl1 Hr1 Hm1.
    generalize (feed_clocks (evenly_spaced (t + 1000 * T) T 24) g).
    intros g1 Hf1 Hc1 Hl1 Hr1 Hm1.
    rewrite wrap_int32_small in Hm1 by lia.
    replace (t + 1000 * T + Z.of_nat 24 * (1000 * T))
      with ((t + 24 * (1000 * T)) + 1000 * T) by lia.
    destruct (IH (t + 24 * (1000 * T)) g1 Hf1 Hc1 Hl1 ltac:(lia) ltac:(lia))
      as (Hr & Hm & Hc).
    rewrite Hr, Hm, Hc, Hr1, Hm1. repeat split; try lia.
    change (raw_bpm_of (24 * T) :: raw_samples (g_effects g))
      with ([raw_bpm_of (24 * T)] ++ raw_samples (g_effects g)).
    rewrite app_assoc, <- repeat_cons. reflexivity.
Qed.

(** X10: a steady clock is sampled once per quarter note.  From a fresh
    window, [1 + 24 n] pulses [T] microseconds apart yield exactly [n]
    samples, each 60,000,000 / (24 T) clamped, the measurement count goes up
    by [n], and the pulse counter is back at 0. *)
Theorem steady_clock_is_sampled_every_24_pulses (n : nat) (t0 T : Z)
    (g : Globals) :
  first_clock_received (g_bpm_state g) = false ->
  0 < T ->
  -2147483648 <= measurement_count (g_bpm_state g) ->
  measurement_count (g_bpm_state g) + Z.of_nat n < 2147483648 ->
  let g' := feed_clocks (evenly_spaced t0 T (1 + 24 * n)) g in
  raw_samples (g_effects g')
  = repeat (raw_bpm_of (24 * T)) n ++ raw_samples (g_effects g) /\
  measurement_count (g_bpm_state g')
  = measurement_count (g_bpm_state g) + Z.of_nat n /\
  pulse_count (g_bpm_state g') = 0.
Proof.
  intros Hfresh HT Hlo Hhi g'. unfold g'.
  change (1 + 24 * n)%nat with (S (24 * n)).
  rewrite evenly_spaced_S, feed_clocks_cons.
  destruct (first_pulse_opens_window t0 g Hfresh)
    as (Hfirst & Hcount & Hlast & _ & Hmc & Hraw).
  revert Hfirst Hcount Hlast Hmc Hraw.
  generalize (calculate_and_set_bpm t0 g). intros g1 Hfirst Hcount Hlast Hmc Hraw.
  rewrite <- Hmc, <- Hraw in *.
  now apply windows_in_a_row.
Qed.

Lemma steady_clock_is_sampled_every_24_pulses_witness :
  let g' := feed_clocks (evenly_spaced 0 20833 (1 + 24 * 4)) (started 48000 0) in
  raw_samples (g_effects g') = repeat (raw_bpm_of (24 * 20833)) 4 /\
  measurement_count (g_bpm_state g') = 4.
Proof.
  intros g'.
  destruct (steady_clock_is_sampled_every_24_pulses 4 0 20833 (started 48000 0))
    as (H1 & H2 & _).
  - reflexivity.
  - lia.
  - vm_compute. discriminate.
  - vm_compute. reflexivity.
  - unfold g'. split; [rewrite H1; apply app_nil_r|exact H2].
Defined.

(** ** Without a JACK client *)

Lemma no_client_clock (now : Z) (g : Globals) :
  g_jack_client g = false ->
  let g' := calculate_and_set_bpm now g in
  jack_requests (g_effects g') = jack_requests (g_effects g) /\
  transport_rolling (g_bpm_state g') = transport_rolling (g_bpm_state g).
Proof.
  intros Hc. unfold calculate_and_set_bpm.
  destruct (negb _).
  - cbn [upd g_jack_client]. rewrite Hc. cbn [andb]. split; reflexivity.
  - destruct (_ <=? _); [|split; reflexivity].
    destruct (take_measurement_fields
                (elapsed_microseconds now (last_pulse_time (g_bpm_state g))) g)
      as (_ & _ & _ & _ & _ & Hj & _).
    destruct (take_measurement_position
                (elapsed_microseconds now (last_pulse_time (g_bpm_state g))) g)
      as (_ & _ & Hr).
    rewrite Hc in Hj. cbn [app] in Hj.
    destruct (0 <? _).
    + revert Hj Hr. generalize (take_measurement
                 (elapsed_microseconds now (last_pulse_time (g_bpm_state g))) g).
      intros g' Hj Hr. rewrite <- Hj, <- Hr.
      match goal with |- context [if ?b then _ else _] => destruct b end;
        split; reflexivity.
    + match goal with |- context [if ?b then _ else _] => destruct b end;
        split; reflexivity.
Qed.

Lemma no_client_step (g : Globals) (a : action) :
  g_jack_client g = false ->
  is_callback a = false ->
  jack_requests (g_effects (perform g a)) = jack_requests (g_effects g) /\
  transport_rolling (g_bpm_state (perform g a)) = transport_rolling (g_bpm_state g) /\
  position (perform g a) = position g.
Proof.
  intros Hc Ha.
  destruct a as [[[]|] now|n|pos np| |r]; try discriminate;
    cbn [perform process_midi_clock].
  - destruct (no_client_clock now g Hc) as [H1 H2].
    destruct (calculate_and_set_bpm_position now g) as [H3 _]. auto.
  - rewrite Hc. repeat split.
  - rewrite Hc. repeat split.
  - rewrite Hc. repeat split.
  - repeat split.
  - repeat split.
  - unfold reset_transport. rewrite Hc. repeat split.
  - unfold toggle_play_pause. rewrite Hc. repeat split.
Qed.

(** X11: without a JACK client nothing reaches the transport: whatever MIDI
    events and keyboard commands are handled, no request is sent to JACK,
    the rolling flag keeps its value and the position is not touched (the
    tempo is still tracked). *)
Theorem without_client_transport_is_untouched (acts : list action) (g : Globals) :
  g_jack_client g = false ->
  forallb (fun a => negb (is_callback a)) acts = true ->
  jack_requests (g_effects (run acts g)) = jack_requests (g_effects g) /\
  transport_rolling (g_bpm_state (run acts g)) = transport_rolling (g_bpm_state g) /\
  position (run acts g) = position g.
Proof.
  unfold run. revert g.
  induction acts as [|a acts IH]; intros g Hc Hall; cbn [fold_left].
  - repeat split.
  - cbn [forallb] in Hall. apply andb_true_iff in Hall. destruct Hall as [Ha Hall].
    apply negb_true_iff in Ha.
    destruct (no_client_step g a Hc Ha) as (H1 & H2 & H3).
    destruct (IH (perform g a)) as (I1 & I2 & I3).
    + now rewrite perform_client.
    + exact Hall.
    + rewrite I1, I2, I3. auto.
Qed.

Lemma without_client_transport_is_untouched_witness :
  let acts := MidiEvent (Some SND_SEQ_EVENT_START) 0
              :: map (fun t => MidiEvent (Some SND_SEQ_EVENT_CLOCK) t)
                   (evenly_spaced 0 20833 30)
              ++ [TogglePlayPause false; ResetTransport] in
  jack_requests (g_effects (run acts initial_globals)) = [] /\
  transport_rolling (g_bpm_state (run acts initial_globals)) = false /\
  position (run acts initial_globals) = (0, 1, 1, 0).
Proof.
  intros acts.
  apply (without_client_transport_is_untouched acts initial_globals); reflexivity.
Defined.

(** ** Snapping moves the tempo by at most the threshold *)

(** X12: whatever the snapping step returns is within the snap threshold of
    the smoothed tempo it was given: it returns either that value or the
    nearest integer, and the integer only when it is that close. *)
Theorem snap_stays_within_threshold (raw x : float) (s : BPMState) :
  bpm_in_range x ->
  (fst (snap_bpm raw x s) = x \/ fst (snap_bpm raw x s) = round x) /\
  PrimFloat.leb (PrimFloat.abs (x - fst (snap_bpm raw x s))%float)
    BPM_SNAP_THRESHOLD = true.
Proof.
  intros Hx.
  assert (Hself : PrimFloat.leb (PrimFloat.abs (x - x)%float) BPM_SNAP_THRESHOLD = true).
  { rewrite leb_spec, abs_spec, sub_diag; [reflexivity|].
    pose proof (bpm_in_range_normal x Hx) as Hn. unfold normal_in in Hn.
    destruct (Prim2SF x) as [| | |[] m e]; try contradiction. exact I. }
  unfold snap_bpm.
  destruct (PrimFloat.leb (PrimFloat.abs (x - round x)%float) BPM_SNAP_THRESHOLD)
    eqn:Hd; [|auto].
  destruct (PrimFloat.ltb _ _);
    cbn [stability_counter set_stability_counter set_last_snapped_bpm];
    destruct (_ <=? _); cbn [fst]; auto.
Qed.

Lemma snap_stays_within_threshold_witness :
  PrimFloat.leb
    (PrimFloat.abs
       (120.1 - fst (snap_bpm 120.2 120.1 (set_stability_counter 2 (set_last_snapped_bpm 120 initial_bpm_state))))%float)
    BPM_SNAP_THRESHOLD = true.
Proof.
  apply snap_stays_within_threshold. split; reflexivity.
Defined.

(** ** Frames and sample rates as doubles *)

(** X13: every frame count and sample rate the 32-bit [jack_nframes_t] can
    hold (every integer below [2^53]) converts to a double of exactly that
    value: the seconds elapsed are computed from exact operands. *)
Theorem frame_converts_exactly (n : Z) :
  0 <= n < 2 ^ 53 ->
  exists q : Q, value (double_of_Z n) = Some q /\ (q == inject_Z n)%Q.
Proof.
  intros [H0 Hn]. destruct n as [|p|p]; try lia.
  - exists 0%Q. split; reflexivity.
  - destruct (double_of_Z_exact p Hn) as (m' & E & V & _).
    unfold value. rewrite E. cbn [SF2Q]. unfold magnitude.
    pose proof (digits2_pos_le p 53 ltac:(lia) Hn) as Hd.
    destruct (Z.pos (digits2_pos p) - 53) as [|k|k] eqn:Ek; try lia.
    + eexists. split; [reflexivity|].
      rewrite V. replace (53 - Z.pos (digits2_pos p)) with 0 by lia.
      rewrite Z.pow_0_r, !Z.mul_1_r. reflexivity.
    + eexists. split; [reflexivity|].
      unfold Qeq. cbn [Qnum Qden inject_Z].
      rewrite V, Pos2Z.inj_pow.
      replace (53 - Z.pos (digits2_pos p)) with (Z.pos k) by lia. lia.
Qed.

Lemma frame_converts_exactly_witness :
  exists q : Q, value (double_of_Z 4294967295) = Some q /\ (q == inject_Z 4294967295)%Q.
Proof.
  apply frame_converts_exactly. split; [discriminate|reflexivity].
Defined.

(** ** The tempo handed to the transport *)

Lemma self_distance_small (b : float) :
  PrimFloat.ltb 0.3%float (PrimFloat.abs (b - b)%float) = false.
Proof.
  rewrite ltb_spec, abs_spec, sub_spec.
  destruct (Prim2SF b) as [[]|[]| |sb mb eb]; try reflexivity.
  unfold SF64sub, SFsub. now rewrite Z.sub_diag.
Qed.

Lemma update_jack_transport_bpm_hysteresis (bpm : float) (g : Globals) :
  g_jack_client g = true ->
  let g' := update_jack_transport_bpm bpm g in
  PrimFloat.ltb 0.3%float
    (PrimFloat.abs (bpm - last_updated_jack_bpm (g_bpm_state g'))%float) = false /\
  current_bpm (g_bpm_state g') = current_bpm (g_bpm_state g).
Proof.
  intros Hc. unfold update_jack_transport_bpm. rewrite Hc. cbn [negb].
  destruct (PrimFloat.ltb 0.3%float
              (PrimFloat.abs (bpm - last_updated_jack_bpm (g_bpm_state g))%float)) eqn:E.
  - cbn. split; [apply self_distance_small|]. now destruct g as [c [] l].
  - cbn [emit g_bpm_state]. split; [exact E|reflexivity].
Qed.

Lemma take_measurement_hysteresis (e : Z) (g : Globals) :
  g_jack_client g = true ->
  let g' := take_measurement e g in
  PrimFloat.ltb 0.3%float
    (PrimFloat.abs (current_bpm (g_bpm_state g')
                    - last_updated_jack_bpm (g_bpm_state g'))%float) = false.
Proof.
  intros Hc. unfold take_measurement.
  destruct (snap_bpm _ _ _) as [final s].
  match goal with
  | |- context [update_jack_transport_bpm final ?g0] =>
      destruct (update_jack_transport_bpm_hysteresis final g0) as [H1 H2];
        [exact Hc|]; revert H1 H2; generalize (update_jack_transport_bpm final g0)
  end.
  intros g1 H1 H2. cbn [emit g_bpm_state]. rewrite H2. exact H1.
Qed.

Lemma hysteresis_step (g : Globals) (a : action) :
  g_jack_client g = true ->
  last_report (g_effects g) = None \/
  PrimFloat.ltb 0.3%float
    (PrimFloat.abs (current_bpm (g_bpm_state g)
                    - last_updated_jack_bpm (g_bpm_state g))%float) = false ->
  last_report (g_effects (perform g a)) = None \/
  PrimFloat.ltb 0.3%float
    (PrimFloat.abs (current_bpm (g_bpm_state (perform g a))
                    - last_updated_jack_bpm (g_bpm_state (perform g a)))%float) = false.
Proof.
  intros Hc Inv.
  destruct a as [[[]|] now|n|pos np| |r]; cbn [perform process_midi_clock].
  1: { unfold calculate_and_set_bpm.
    destruct (negb _).
    + cbn [upd g_jack_client]. rewrite Hc. cbn [andb].
      destruct (negb _); exact Inv.
    + destruct (_ <=? _); [|exact Inv].
      assert (Inv' :
        let g1 := if 0 <? elapsed_microseconds now (last_pulse_time (g_bpm_state g))
                  then take_measurement
                         (elapsed_microseconds now (last_pulse_time (g_bpm_state g))) g
                  else g in
        last_report (g_effects g1) = None \/
        PrimFloat.ltb 0.3%float
          (PrimFloat.abs (current_bpm (g_bpm_state g1)
                          - last_updated_jack_bpm (g_bpm_state g1))%float) = false).
      { destruct (0 <? _); [right; now apply take_measurement_hysteresis|exact Inv]. }
      revert Inv'. cbv zeta.
      generalize (if 0 <? elapsed_microseconds now (last_pulse_time (g_bpm_state g))
                  then take_measurement
                         (elapsed_microseconds now (last_pulse_time (g_bpm_state g))) g
                  else g).
      intros g1 Inv'.
      match goal with |- context [if ?b then _ else _] => destruct b end; exact Inv'. }
  all: unfold jack_process_callback, jack_timebase_callback, reset_transport,
         toggle_play_pause; rewrite ?Hc;
       repeat match goal with
              | |- context [if ?b then _ else _] => destruct b
              end; exact Inv.
Qed.

(** X14: with a JACK client, once a tempo has been reported the tempo last
    handed to the transport is never more than 0.3 BPM away from the
    current tempo, whatever events, callbacks and commands follow. *)
Theorem published_tempo_follows_current (g : Globals) :
  running g ->
  last_report (g_effects g) <> None ->
  PrimFloat.ltb 0.3%float
    (PrimFloat.abs (current_bpm (g_bpm_state g)
                    - last_updated_jack_bpm (g_bpm_state g))%float) = false.
Proof.
  intros (rate & resets & acts & ->) Hrep.
  enough (Inv : last_report (g_effects (run acts (started rate resets))) = None \/
     PrimFloat.ltb 0.3%float
       (PrimFloat.abs (current_bpm (g_bpm_state (run acts (started rate resets)))
          - last_updated_jack_bpm (g_bpm_state (run acts (started rate resets))))%float)
     = false) by (destruct Inv; [contradiction|assumption]).
  clear Hrep.
  assert (H0 : last_report (g_effects (started rate resets)) = None).
  { unfold started, jack_client_opened. cbn [g_effects].
    enough (H : g_jack_client (Nat.iter resets reset_transport initial_globals) = false /\
                last_report (g_effects (Nat.iter resets reset_transport initial_globals))
                = None) by apply H.
    induction resets as [|n IH]; [split; reflexivity|]. destruct IH as [IH1 IH2].
    rewrite Nat.iter_succ. revert IH1 IH2.
    generalize (Nat.iter n reset_transport initial_globals). intros g' IH1 IH2.
    unfold reset_transport. rewrite IH1. split; [exact IH1|exact IH2]. }
  assert (Hc : g_jack_client (started rate resets) = true) by reflexivity.
  assert (Inv0 : last_report (g_effects (started rate resets)) = None \/
     PrimFloat.ltb 0.3%float
       (PrimFloat.abs (current_bpm (g_bpm_state (started rate resets))
          - last_updated_jack_bpm (g_bpm_state (started rate resets)))%float) = false)
    by (left; exact H0).
  clear H0. revert Hc Inv0. generalize (started rate resets). unfold run.
  induction acts as [|a acts IH]; intros g Hc Inv; cbn [fold_left]; [exact Inv|].
  apply IH; [now rewrite perform_client|now apply hysteresis_step].
Qed.

Lemma published_tempo_follows_current_witness :
  let g := run (map (fun t => MidiEvent (Some SND_SEQ_EVENT_CLOCK) t)
                  (evenly_spaced 0 20833 26) ++ [ProcessBlock 256])
             (started 48000 0) in
  PrimFloat.ltb 0.3%float
    (PrimFloat.abs (current_bpm (g_bpm_state g)
                    - last_updated_jack_bpm (g_bpm_state g))%float) = false.
Proof.
  intros g. apply published_tempo_follows_current.
  - exists 48000, 0%nat. eexists. reflexivity.
  - unfold g. vm_compute. discriminate.
Defined.

(** ** Beat and tick stay on the grid *)

Lemma posnormal_weaken (lo hi lo' hi' : Z) (x : spec_float) :
  posnormal lo hi x -> lo' <= lo -> hi <= hi' -> posnormal lo' hi' x.
Proof.
  destruct x as [| | |[] m e]; try contradiction.
  cbn [posnormal]. lia.
Qed.

Lemma scale2_exact (r : positive) (e : Z) :
  Z.pos r < 2 ^ 53 ->
  -1074 <= e + Z.pos (digits2_pos r) - 53 < 971 ->
  exists m' : positive,
    Prim2SF (scale2 (double_of_Z (Z.pos r)) e)
    = S754_finite false m' (Z.pos (digits2_pos r) - 53 + e) /\
    Z.pos m' = Z.pos r * 2 ^ (53 - Z.pos (digits2_pos r)) /\
    2 ^ 52 <= Z.pos m' < 2 ^ 53.
Proof.
  intros Hr He. unfold scale2. rewrite FloatLemmas.Z_ldexp_spec.
  destruct (double_of_Z_exact r Hr) as (m0 & E & V & N).
  rewrite E. cbn [SFldexp].
  pose proof (digits2_pos_ge m0 53 (proj1 N)) as D1.
  pose proof (digits2_pos_le m0 53 ltac:(lia) (proj2 N)) as D2.
  assert (D : Z.pos (digits2_pos m0) = 53) by lia.
  destruct (binary_round_short false m0 (Z.pos (digits2_pos r) - 53 + e))
    as (m' & E' & V' & N'); [lia|lia|].
  rewrite D, Z.sub_diag, Z.pow_0_r, Z.mul_1_r in V'.
  exists m'. rewrite E', D. split; [f_equal; lia|]. split; lia.
Qed.

(** The remainder of two positive normal doubles is [+0] or a positive
    normal double below the divisor. *)
Lemma fmod_posnormal (x y : float) (mx my : positive) (ex ey : Z) :
  Prim2SF x = S754_finite false mx ex ->
  Prim2SF y = S754_finite false my ey ->
  2 ^ 52 <= Z.pos mx < 2 ^ 53 -> 2 ^ 52 <= Z.pos my < 2 ^ 53 ->
  -800 <= ex <= 400 -> -800 <= ey <= 400 ->
  Prim2SF (fmod x y) = S754_zero false \/
  exists (m' : positive) (e' : Z),
    Prim2SF (fmod x y) = S754_finite false m' e' /\
    2 ^ 52 <= Z.pos m' < 2 ^ 53 /\ Z.min ex ey - 52 <= e' <= 400 /\
    scaled 1000 (Z.pos m') e' < scaled 1000 (Z.pos my) ey.
Proof.
  intros Hx Hy Nx Ny Ex Ey. unfold fmod. rewrite Hx, Hy.
  set (e := Z.min ex ey).
  assert (He : -800 <= e <= 400) by (unfold e; lia).
  assert (P1 : 0 < 2 ^ (ex - e)) by (apply Z.pow_pos_nonneg; unfold e; lia).
  assert (P2 : 0 < 2 ^ (ey - e)) by (apply Z.pow_pos_nonneg; unfold e; lia).
  pose proof (Z.mod_pos_bound (Z.pos mx * 2 ^ (ex - e)) (Z.pos my * 2 ^ (ey - e))
                ltac:(lia)) as Hr.
  assert (Hr53 : (Z.pos mx * 2 ^ (ex - e)) mod (Z.pos my * 2 ^ (ey - e)) < 2 ^ 53).
  { destruct (Z.le_ge_cases ex ey) as [L|L].
    - replace (ex - e) with 0 by (unfold e; lia).
      rewrite Z.pow_0_r, Z.mul_1_r.
      pose proof (Z.mod_le (Z.pos mx) (Z.pos my * 2 ^ (ey - e)) ltac:(lia) ltac:(lia)).
      lia.
    - replace (ey - e) with 0 in * by (unfold e; lia).
      rewrite Z.pow_0_r, Z.mul_1_r in *. lia. }
  destruct ((Z.pos mx * 2 ^ (ex - e)) mod (Z.pos my * 2 ^ (ey - e))) as [|r|r] eqn:Er;
    try lia.
  - left. unfold scale2. rewrite FloatLemmas.Z_ldexp_spec. reflexivity.
  - right.
    pose proof (digits2_pos_le r 53 ltac:(lia) Hr53) as D2.
    assert (D1 : 1 <= Z.pos (digits2_pos r)) by lia.
    destruct (scale2_exact r e Hr53) as (m' & E' & V' & N'); [lia|].
    exists m', (Z.pos (digits2_pos r) - 53 + e).
    split; [exact E'|]. split; [exact N'|]. split; [fold e; lia|].
    unfold scaled. rewrite V'.
    rewrite <- Z.mul_assoc, <- Z.pow_add_r by lia.
    replace (53 - Z.pos (digits2_pos r) + (Z.pos (digits2_pos r) - 53 + e + 1000))
      with (e + 1000) by lia.
    replace (ey + 1000) with ((ey - e) + (e + 1000)) by lia.
    rewrite (Z.pow_add_r 2 (ey - e) (e + 1000)) by (unfold e; lia).
    rewrite Z.mul_assoc.
    apply Zmult_lt_compat_r; [apply Z.pow_pos_nonneg; lia|lia].
Qed.

Lemma trunc_mag_below (k N : Z) (m : positive) (e : Z) :
  0 <= k -> 0 <= e + k ->
  scaled k (Z.pos m) e < N * 2 ^ k ->
  0 <= trunc_mag m e < N.
Proof.
  intros Hk He H. unfold scaled in H. unfold trunc_mag.
  assert (Pk : 0 < 2 ^ k) by (apply Z.pow_pos_nonneg; lia).
  destruct (Z.leb_spec 0 e) as [L|L].
  - assert (Pe : 0 < 2 ^ e) by (apply Z.pow_pos_nonneg; lia).
    rewrite (Z.pow_add_r 2 e k) in H by lia.
    rewrite Z.mul_assoc in H.
    apply Zmult_lt_reg_r in H; [lia|lia].
  - assert (Pe : 0 < 2 ^ (- e)) by (apply Z.pow_pos_nonneg; lia).
    split; [apply Z.div_pos; lia|].
    apply Z.div_lt_upper_bound; [lia|].
    replace k with ((e + k) + (- e)) in H at 2 by lia.
    rewrite (Z.pow_add_r 2 (e + k) (- e)) in H by lia.
    assert (Pek : 0 < 2 ^ (e + k)) by (apply Z.pow_pos_nonneg; lia).
    nia.
Qed.

Lemma int32_of_double_small (x : float) (m : positive) (e N : Z) :
  Prim2SF x = S754_finite false m e ->
  0 <= trunc_mag m e < N -> N <= 2147483648 ->
  int32_of_double x = trunc_mag m e.
Proof.
  intros Hx Ht HN. unfold int32_of_double. rewrite Hx.
  unfold INT32_MIN, INT32_MAX.
  change (- 2 ^ 31) with (-2147483648). change (2 ^ 31 - 1) with 2147483647.
  destruct (Z.leb_spec (-2147483648) (trunc_mag m e)); [|lia].
  destruct (Z.leb_spec (trunc_mag m e) 2147483647); [reflexivity|lia].
Qed.

Lemma beats_elapsed_posnormal (bpm : float) (frame rate : Z) :
  bpm_in_range bpm -> 0 < frame < 2 ^ 32 -> 0 < rate < 2 ^ 32 ->
  posnormal (-86) 90 (Prim2SF (beats_elapsed bpm frame rate)).
Proof.
  intros [Hlo Hhi] Hf Hr. unfold beats_elapsed.
  assert (P20 : posnormal (-48) (-48) (Prim2SF MIN_BPM))
    by (vm_compute; repeat split; try reflexivity; intro H; discriminate H).
  assert (P300 : posnormal (-44) (-44) (Prim2SF MAX_BPM))
    by (vm_compute; repeat split; try reflexivity; intro H; discriminate H).
  assert (P60 : posnormal (-47) (-47) (Prim2SF 60.0%float))
    by (vm_compute; repeat split; try reflexivity; intro H; discriminate H).
  rewrite leb_spec in Hlo, Hhi.
  pose proof (between_posnormal _ _ _ _ _ _ _ P20 P300 ltac:(lia)
                (Prim2SF_valid bpm) Hlo Hhi) as Pb.
  pose proof (SF64div_posnormal _ _ _ _ _ _ Pb P60 ltac:(lia) ltac:(lia)) as Pq.
  assert (Pn : forall n, 0 < n < 2 ^ 32 -> posnormal (-52) (-21) (Prim2SF (double_of_Z n))).
  { intros n Hn. destruct n as [|p|p]; try lia.
    assert (H53 : Z.pos p < 2 ^ 53).
    { apply Z.lt_trans with (2 ^ 32); [lia|reflexivity]. }
    destruct (double_of_Z_exact p H53) as (m' & E & _ & N).
    rewrite E. cbn [posnormal]. split; [exact N|].
    pose proof (digits2_pos_le p 32 ltac:(lia) (proj2 Hn)). lia. }
  pose proof (SF64div_posnormal _ _ _ _ _ _ (Pn frame Hf) (Pn rate Hr)
                ltac:(lia) ltac:(lia)) as Ps.
  rewrite mul_spec, !div_spec.
  pose proof (SF64mul_rounds _ _ _ _ _ _ Pq Ps ltac:(lia) ltac:(lia)) as R.
  revert Pq Ps R.
  generalize (SF64div (Prim2SF bpm) (Prim2SF 60%float)).
  generalize (SF64div (Prim2SF (double_of_Z frame)) (Prim2SF (double_of_Z rate))).
  intros y x Px Py R.
  destruct x as [| | |[] mx ex]; try contradiction.
  destruct y as [| | |[] my ey]; try contradiction.
  cbn [posnormal] in Px, Py.
  pose proof (rounds_to_posnormal _ _ _ R) as P.
  assert (H104 : 2 ^ 104 <= Z.pos (mx * my) < 2 ^ 106).
  { rewrite Pos2Z.inj_mul.
    change (2 ^ 104) with (2 ^ 52 * 2 ^ 52). change (2 ^ 106) with (2 ^ 53 * 2 ^ 53).
    assert (0 < 2 ^ 52) by reflexivity. assert (0 < 2 ^ 53) by reflexivity.
    split; [apply Z.mul_le_mono_nonneg; lia|].
    apply Z.le_lt_trans with (Z.pos mx * 2 ^ 53).
    - apply Z.mul_le_mono_nonneg_l; lia.
    - apply Zmult_lt_compat_r; lia. }
  pose proof (digits2_pos_ge (mx * my) 105 (proj1 H104)) as D1.
  pose proof (digits2_pos_le (mx * my) 106 ltac:(lia) (proj2 H104)) as D2.
  eapply posnormal_weaken; [exact P|lia|lia].
Qed.

Lemma beat_on_grid (be : float) :
  Prim2SF be = S754_zero false \/ posnormal (-86) 90 (Prim2SF be) ->
  1 <= wrap_int32 (int32_of_double (fmod be 4.0%float) + 1) <= 4.
Proof.
  intros [Z0|P].
  - unfold fmod. rewrite Z0. cbn. unfold int32_of_double. rewrite Z0.
    vm_compute. split; discriminate.
  - destruct (Prim2SF be) as [| | |[] mx ex] eqn:E; try contradiction.
    cbn [posnormal] in P.
    assert (E4 : Prim2SF 4.0%float = S754_finite false 4503599627370496 (-50))
      by reflexivity.
    assert (N4 : 2 ^ 52 <= 4503599627370496 < 2 ^ 53)
      by (split; [discriminate|reflexivity]).
    destruct (fmod_posnormal be 4.0%float mx 4503599627370496 ex (-50) E E4
                (proj1 P) N4 ltac:(lia) ltac:(lia))
      as [Z0|(m' & e' & E' & N' & B' & S')].
    + unfold int32_of_double. rewrite Z0. vm_compute. split; discriminate.
    + assert (T : 0 <= trunc_mag m' e' < 4).
      { apply (trunc_mag_below 1000); [lia|lia|].
        apply Z.lt_le_trans with (1 := S'). vm_compute. discriminate. }
      rewrite (int32_of_double_small _ m' e' 4 E' T ltac:(lia)).
      rewrite wrap_int32_small by lia. lia.
Qed.

Lemma fmod_of_zero (x y : float) (my : positive) (ey : Z) :
  Prim2SF x = S754_zero false ->
  Prim2SF y = S754_finite false my ey ->
  Prim2SF (fmod x y) = S754_zero false.
Proof. intros Hx Hy. unfold fmod. rewrite Hx, Hy. exact Hx. Qed.

Lemma below_one_scaled (m : positive) (e : Z) :
  2 ^ 52 <= Z.pos m < 2 ^ 53 -> -800 <= e ->
  scaled 1000 (Z.pos m) e < scaled 1000 4503599627370496 (-52) ->
  scaled 1000 (Z.pos m) e <= scaled 1000 9007199254740991 (-53).
Proof.
  intros N He S. unfold scaled in *.
  change (-52 + 1000) with 948 in S. change (-53 + 1000) with 947.
  change 4503599627370496 with (2 ^ 52) in S.
  change 9007199254740991 with (2 ^ 53 - 1).
  assert (P52 : 0 < 2 ^ 52) by reflexivity.
  assert (Pe : 0 < 2 ^ (e + 1000)) by (apply Z.pow_pos_nonneg; lia).
  assert (Ee : e <= -53).
  { destruct (Z.le_gt_cases e (-53)) as [L|L]; [exact L|]. exfalso.
    assert (H1 : 2 ^ 948 <= 2 ^ (e + 1000)) by (apply Z.pow_le_mono_r; lia).
    assert (H2 : 2 ^ 52 * 2 ^ 948 <= Z.pos m * 2 ^ (e + 1000))
      by (apply Z.mul_le_mono_nonneg; lia).
    revert S H2. generalize (2 ^ 52 * 2 ^ 948) (Z.pos m * 2 ^ (e + 1000)). lia. }
  assert (H1 : 2 ^ (e + 1000) <= 2 ^ 947) by (apply Z.pow_le_mono_r; lia).
  apply Z.mul_le_mono_nonneg; lia.
Qed.

Lemma tick_below_1920 (t : float) (m : positive) (e : Z) :
  Prim2SF t = S754_finite false m e ->
  2 ^ 52 <= Z.pos m < 2 ^ 53 -> -800 <= e <= 400 ->
  scaled 1000 (Z.pos m) e < scaled 1000 4503599627370496 (-52) ->
  0 <= int32_of_double (t * 1920.0)%float <= 1919.
Proof.
  intros Ht N He S.
  pose proof (below_one_scaled m e N (proj1 He) S) as S1.
  assert (E1920 : Prim2SF 1920.0%float = S754_finite false 8444249301319680 (-42))
    by reflexivity.
  assert (Pt : posnormal (-800) 400 (S754_finite false m e)) by (split; assumption).
  assert (P1920 : posnormal (-42) (-42) (S754_finite false 8444249301319680 (-42)))
    by (vm_compute; repeat split; try reflexivity; intro H; discriminate H).
  assert (Pp : posnormal (-53) (-53) (S754_finite false 9007199254740991 (-53)))
    by (vm_compute; repeat split; try reflexivity; intro H; discriminate H).
  pose proof (SF64mul_rounds _ _ _ _ _ _ Pt P1920 ltac:(lia) ltac:(lia)) as R1.
  pose proof (SF64mul_rounds _ _ _ _ _ _ Pp P1920 ltac:(lia) ltac:(lia)) as R2.
  cbv beta iota in R1, R2.
  assert (M : SFleb (SF64mul (S754_finite false m e)
                       (S754_finite false 8444249301319680 (-42)))
                    (SF64mul (S754_finite false 9007199254740991 (-53))
                       (S754_finite false 8444249301319680 (-42))) = true).
  { apply (rounds_to_monotone (1000 + 100) _ _ _ _ _ _ R1 R2); [lia|lia|].
    rewrite !Pos2Z.inj_mul.
    rewrite (scaled_mul 1000 100 (Z.pos m) e 8444249301319680 (-42)) by lia.
    rewrite (scaled_mul 1000 100 9007199254740991 (-53) 8444249301319680 (-42)) by lia.
    apply Z.mul_le_mono_nonneg_r; [|exact S1].
    unfold scaled. apply Z.mul_nonneg_nonneg; [lia|apply Z.pow_nonneg; lia]. }
  pose proof (rounds_to_posnormal _ _ _ R1) as P1.
  pose proof (rounds_to_posnormal _ _ _ R2) as P2.
  assert (H104 : 2 ^ 104 <= Z.pos (m * 8444249301319680) < 2 ^ 106).
  { rewrite Pos2Z.inj_mul.
    assert (N2 : 2 ^ 52 <= 8444249301319680 < 2 ^ 53)
      by (split; [discriminate|reflexivity]).
    revert N2. generalize 8444249301319680. intros c N2.
    change (2 ^ 104) with (2 ^ 52 * 2 ^ 52). change (2 ^ 106) with (2 ^ 53 * 2 ^ 53).
    assert (0 < 2 ^ 52) by reflexivity. assert (0 < 2 ^ 53) by reflexivity.
    split; [apply Z.mul_le_mono_nonneg; lia|].
    apply Z.le_lt_trans with (Z.pos m * 2 ^ 53).
    - apply Z.mul_le_mono_nonneg_l; lia.
    - apply Zmult_lt_compat_r; lia. }
  pose proof (digits2_pos_ge _ 105 (proj1 H104)) as D1.
  pose proof (digits2_pos_le _ 106 ltac:(lia) (proj2 H104)) as D2.
  apply (posnormal_weaken _ _ (-900) 500) in P1; [|lia|lia].
  apply (posnormal_weaken _ _ (-900) 500) in P2; [|vm_compute; discriminate|vm_compute; discriminate].
  apply (SFleb_scaled 1000 _ _ _ _ _ _ P1 P2 ltac:(lia) ltac:(lia)) in M.
  assert (C : SFscaled 1000 (SF64mul (S754_finite false 9007199254740991 (-53))
                               (S754_finite false 8444249301319680 (-42)))
              < 1920 * 2 ^ 1000) by (vm_compute; reflexivity).
  assert (Em : Prim2SF (t * 1920.0)%float
               = SF64mul (S754_finite false m e)
                   (S754_finite false 8444249301319680 (-42)))
    by (rewrite mul_spec, Ht, E1920; reflexivity).
  revert P1 M Em.
  generalize (SF64mul (S754_finite false m e) (S754_finite false 8444249301319680 (-42))).
  intros r P1 M Em.
  destruct r as [| | |[] mr er]; try contradiction.
  cbn [posnormal] in P1. cbn [SFscaled] in M.
  assert (T : 0 <= trunc_mag mr er < 1920).
  { apply (trunc_mag_below 1000); [lia|lia|]. 
    eapply Z.le_lt_trans; [exact M|exact C]. }
  rewrite (int32_of_double_small _ mr er 1920 Em T ltac:(lia)). lia.
Qed.

Lemma tick_on_grid (be : float) :
  Prim2SF be = S754_zero false \/ posnormal (-86) 90 (Prim2SF be) ->
  0 <= int32_of_double (fmod (fmod be 4.0%float) 1.0%float * 1920.0)%float <= 1919.
Proof.
  intros Hbe.
  assert (E4 : Prim2SF 4.0%float = S754_finite false 4503599627370496 (-50))
    by reflexivity.
  assert (E1 : Prim2SF 1.0%float = S754_finite false 4503599627370496 (-52))
    by reflexivity.
  assert (N4 : 2 ^ 52 <= 4503599627370496 < 2 ^ 53)
    by (split; [discriminate|reflexivity]).
  assert (Zero : forall t, Prim2SF t = S754_zero false ->
                           0 <= int32_of_double (t * 1920.0)%float <= 1919).
  { intros t Ht. unfold int32_of_double. rewrite mul_spec, Ht.
    vm_compute. split; discriminate. }
  assert (Hb : Prim2SF (fmod be 4.0%float) = S754_zero false \/
               exists (m' : positive) (e' : Z),
                 Prim2SF (fmod be 4.0%float) = S754_finite false m' e' /\
                 2 ^ 52 <= Z.pos m' < 2 ^ 53 /\ -138 <= e' <= 400).
  { destruct Hbe as [Z0|P].
    - left. exact (fmod_of_zero _ _ _ _ Z0 E4).
    - destruct (Prim2SF be) as [| | |[] mx ex] eqn:E; try contradiction.
      cbn [posnormal] in P.
      destruct (fmod_posnormal be 4.0%float mx 4503599627370496 ex (-50) E E4
                  (proj1 P) N4 ltac:(lia) ltac:(lia))
        as [Z0|(m' & e' & E' & N' & B' & _)]; [left; exact Z0|right].
      exists m', e'. repeat split; try assumption; lia. }
  destruct Hb as [Z0|(m' & e' & E' & N' & B')].
  - apply Zero. exact (fmod_of_zero _ _ _ _ Z0 E1).
  - destruct (fmod_posnormal (fmod be 4.0%float) 1.0%float m' 4503599627370496
                e' (-52) E' E1 N' N4 ltac:(lia) ltac:(lia))
      as [Z0|(m'' & e'' & E'' & N'' & B'' & S'')]; [apply Zero; exact Z0|].
    apply (tick_below_1920 _ m'' e'' E'' N''); [lia|exact S''].
Qed.

Lemma timebase_callback_bbt_at (pos : jack_position_t) (new_pos : Z) (g : Globals) :
  let frame := if negb (new_pos =? 0) then current_frame (g_bpm_state g)
               else pos_frame pos in
  let be := beats_elapsed (current_bpm (g_bpm_state g)) frame
              (sample_rate (g_bpm_state g)) in
  bbt (fst (jack_timebase_callback pos new_pos g))
  = (wrap_int32 (int32_of_double (be / 4.0)%float + 1),
     wrap_int32 (int32_of_double (fmod be 4.0%float) + 1),
     int32_of_double (fmod (fmod be 4.0%float) 1.0%float * 1920.0)%float).
Proof.
  unfold jack_timebase_callback. destruct (negb (new_pos =? 0)); reflexivity.
Qed.

(** X15: every answer to a timebase query has its beat in 1..4 and its tick
    in 0..1919, for every tempo within the clamp bounds, every 32-bit
    sample rate above 0 and every 32-bit frame, whether the query uses the
    host's frame or the internal counter.  The products and quotients are
    rounded doubles; the remainders are exact, and the largest remainder
    below 1 times 1920 still rounds below 1920. *)
Theorem beat_and_tick_stay_on_grid (pos : jack_position_t) (new_pos : Z)
    (g : Globals) :
  bpm_in_range (current_bpm (g_bpm_state g)) ->
  0 < sample_rate (g_bpm_state g) < 2 ^ 32 ->
  0 <= pos_frame pos < 2 ^ 32 ->
  0 <= current_frame (g_bpm_state g) < 2 ^ 32 ->
  let pos' := fst (jack_timebase_callback pos new_pos g) in
  1 <= pos_beat pos' <= 4 /\ 0 <= pos_tick pos' <= 1919.
Proof.
  intros Hb Hr Hp Hc pos'.
  pose proof (timebase_callback_bbt_at pos new_pos g) as E.
  cbv zeta in E. fold pos' in E. unfold bbt in E.
  injection E as _ E2 E3. rewrite E2, E3.
  set (frame := if negb (new_pos =? 0) then current_frame (g_bpm_state g)
                else pos_frame pos).
  assert (Hf : 0 <= frame < 2 ^ 32) by (unfold frame; destruct (negb _); assumption).
  assert (Hbe : Prim2SF (beats_elapsed (current_bpm (g_bpm_state g)) frame
                           (sample_rate (g_bpm_state g))) = S754_zero false \/
                posnormal (-86) 90
                  (Prim2SF (beats_elapsed (current_bpm (g_bpm_state g)) frame
                              (sample_rate (g_bpm_state g))))).
  { destruct (Z.eq_dec frame 0) as [F0|F0].
    - left. rewrite F0, beats_elapsed_zero; [reflexivity|exact Hb|].
      split; [lia|]. apply Z.lt_trans with (2 ^ 32); [lia|reflexivity].
    - right. apply beats_elapsed_posnormal; [exact Hb|lia|exact Hr]. }
  split; [apply beat_on_grid|apply tick_on_grid]; exact Hbe.
Qed.

Lemma beat_and_tick_stay_on_grid_witness :
  let g := run [MidiEvent (Some SND_SEQ_EVENT_START) 0] (started 44100 0) in
  let pos' := fst (jack_timebase_callback (blank_position 4294967295) 0 g) in
  1 <= pos_beat pos' <= 4 /\ 0 <= pos_tick pos' <= 1919.
Proof.
  intros g. apply beat_and_tick_stay_on_grid.
  - split; reflexivity.
  - split; reflexivity.
  - split; [discriminate|reflexivity].
  - split; [discriminate|reflexivity].
Defined.
